(** * PyEFVLib: element shapes, inner faces and the transient heat solver

    A shallow embedding of
      - GridReader/libs/geometry/Shape.py   (modules [Triangle], [Quadrilateral]),
      - PyEFVLib/geometry/InnerFace.py      (module [InnerFace]),
      - libs/simulation/HeatTransfer2D.py   ([computeLocalMatrix] and the class
        [HeatTransfer2D], console output apart).

    Conventions.
      - Scalars (Python and numpy floats) are exact rationals [Qc]: what is
        proved of them is the structure of the computations (lookups, writes,
        shapes, exceptions, comparisons), and identities of exact arithmetic
        where they are named as such.  The module [Binary64] repeats
        [computeLocalMatrix] on IEEE 754 binary64 numbers, where rounding
        breaks those identities.
      - A one-dimensional numpy array is a [list Qc], a two-dimensional one
        the list of its rows.  Arrays are indexed with stdpp's [!!]; an index
        that is out of range raises [IndexError] in the source and is [None]
        here.
      - Every function that can raise returns an [option]; [None] stands for
        any exception.  Loops over Python sequences are [for_each].
      - [np.linalg.norm] and [np.linalg.solve] are the operations of the
        class [Linalg]; [np.linalg.inv] is written out for the 2 x 2
        matrices that the two-dimensional shapes produce. *)

From Stdlib Require Import QArith Qcanon ZArith Lia.
From Stdlib Require PrimFloat.
From Stdlib Require Qcabs.
From stdpp Require Import base option list numbers strings gmap.

Local Open Scope Qc_scope.

Abbreviation Vector := (list Qc).
Abbreviation Matrix := (list (list Qc)).

(** ** Scalars *)

Definition half : Qc := Q2Qc (1 # 2).
Definition minus_half : Qc := Q2Qc (-1 # 2).
Definition minus_one : Qc := Q2Qc (-1 # 1).

(** Closed (in)equalities between rationals are decided by evaluation. *)
Ltac by_evaluation :=
  first [ apply (bool_decide_eq_true_1 _) | apply (bool_decide_eq_false_1 _) ];
  vm_compute; reflexivity.

(** ** Loops in the error monad *)

(** [for x in l: body], threading the state [s]; the first exception
    aborts the loop. *)
Fixpoint for_each {A S : Type} (l : list A) (body : A → S → option S) (s : S)
  : option S :=
  match l with
  | [] => Some s
  | x :: l' => s' ← body x s; for_each l' body s'
  end.

(** The elements of [l] paired with their positions, counted from [start]:
    a loop counter that the source increments by hand. *)
Fixpoint enumerate_from {A : Type} (start : nat) (l : list A) : list (nat * A) :=
  match l with
  | [] => []
  | x :: l' => (start, x) :: enumerate_from (S start) l'
  end.

(** ** Arrays *)

Definition vsum (v : Vector) : Qc := foldr Qcplus 0 v.
Definition vscale (w : Qc) (v : Vector) : Vector := Qcmult w <$> v.
Definition vadd (u v : Vector) : Vector := zip_with Qcplus u v.
Definition dot (u v : Vector) : Qc := vsum (zip_with Qcmult u v).
Definition zeros (n : nat) : Vector := replicate n 0.
Definition zeros2 (n m : nat) : Matrix := replicate n (zeros m).

(** The slice [a[:-1]]. *)
Definition drop_last {A : Type} (l : list A) : list A := take (length l - 1) l.

(** Python's [sum] of a list of arrays: it starts from the integer [0], which
    numpy broadcasts over the first array. *)
Definition sum_arrays (l : list Vector) : Vector :=
  match l with
  | [] => []
  | a :: l' => foldl vadd (Qcplus 0 <$> a) l'
  end.

(** [np.transpose] of a two-dimensional array. *)
Fixpoint transpose (M : Matrix) : Matrix :=
  match M with
  | [] => []
  | [r] => (λ x, [x]) <$> r
  | r :: M' => zip_with cons r (transpose M')
  end.

(** [np.matmul] of a matrix and a vector; mismatched shapes raise. *)
Definition matvec (M : Matrix) (v : Vector) : option Vector :=
  guard (Forall (λ row, length row = length v) M);;
  Some ((λ row, dot row v) <$> M).

(** [np.matmul] of two matrices; mismatched shapes raise. *)
Definition matmul (A B : Matrix) : option Matrix :=
  guard (Forall (λ row, length row = length B) A);;
  Some ((λ a, dot a <$> transpose B) <$> A).

(** [np.linalg.inv] on 2 x 2 matrices, by cofactors; a singular matrix
    raises [LinAlgError].  Both shapes have [dimension = 2], so no other
    size reaches it. *)
Definition linalg_inv (M : Matrix) : option Matrix :=
  match M with
  | [[a; b]; [c; d]] =>
      let det := a * d - b * c in
      if bool_decide (det = 0) then None
      else Some [[d / det; - b / det]; [- c / det; a / det]]
  | _ => None
  end.

(** [v[i] = x] *)
Definition assign (i : nat) (x : Qc) (v : Vector) : option Vector :=
  guard (i < length v)%nat;; Some (<[i := x]> v).

(** [v[i] += x] *)
Definition add_to (i : nat) (x : Qc) (v : Vector) : option Vector :=
  old ← v !! i; Some (<[i := old + x]> v).

(** [M[r][c] += x] *)
Definition add_at (r c : nat) (x : Qc) (M : Matrix) : option Matrix :=
  row ← M !! r; row' ← add_to c x row; Some (<[r := row']> M).

(** [M[r][c] -= x] *)
Definition sub_at (r c : nat) (x : Qc) (M : Matrix) : option Matrix :=
  row ← M !! r; old ← row !! c; Some (<[r := <[c := old - x]> row]> M).

(** Python's [max] of a list; the empty list raises [ValueError]. *)
Definition py_max (l : Vector) : option Qc :=
  match l with
  | [] => None
  | x :: l' => Some (foldl (λ m y, if bool_decide (m < y) then y else m) x l')
  end.

(** ** Points and vertices *)

(** Modelled from the spec: class [Point] (its file is not among the
    sources): three coordinates, built by [Point(x, y, z)] and read back as an
    array by [getCoordinates()]. *)
Record Point : Type := mkPoint { px : Qc; py : Qc; pz : Qc }.

Definition getCoordinates (p : Point) : Vector := [px p; py p; pz p].

(** [Point( *coords )]: exactly three positional arguments. *)
Definition Point_of (coords : Vector) : option Point :=
  match coords with
  | [a; b; c] => Some (mkPoint a b c)
  | _ => None
  end.

(** Modelled from the spec: class [Vertex]: a point with a [handle] (its index
    in the global unknown vector) and a control [volume]. *)
Record Vertex : Type := mkVertex {
  handle : nat;
  coordinates : Point;
  volume : Qc
}.

#[global] Instance Point_eq_dec : EqDecision Point.
Proof. solve_decision. Defined.
#[global] Instance Vertex_eq_dec : EqDecision Vertex.
Proof. solve_decision. Defined.

(** ** Shape.py *)

Module Triangle.

Definition dimension : nat := 2.
Definition numberOfInnerFaces : nat := 3.
Definition numberOfFacets : nat := 3.

Definition q16 : Qc := Q2Qc (1 # 6).
Definition q512 : Qc := Q2Qc (5 # 12).

Definition innerFaceShapeFunctionValues : Matrix :=
  [[q512; q512; q16]; [q16; q512; q512]; [q512; q16; q512]].

Definition innerFaceShapeFunctionDerivatives : list Matrix :=
  [ [[minus_one; minus_one]; [1; 0]; [0; 1]];
    [[minus_one; minus_one]; [1; 0]; [0; 1]];
    [[minus_one; minus_one]; [1; 0]; [0; 1]] ].

Definition innerFaceNeighbourVertices : list (list nat) :=
  [[0; 1]; [1; 2]; [2; 0]]%nat.

Definition _is (vertices : list Vertex) : bool :=
  bool_decide (length vertices = 3%nat).

Definition getInnerFaceAreaVector
    (local : nat) (elementCentroid : Point) (elementVertices : list Vertex)
  : option Point :=
  row ← innerFaceNeighbourVertices !! local;
  i1 ← row !! 0%nat;
  vertex1 ← elementVertices !! i1;
  i2 ← row !! 1%nat;
  vertex2 ← elementVertices !! i2;
  let areaVectorCoords :=
    sum_arrays
      (zip_with vscale [1; minus_half; minus_half]
         [getCoordinates elementCentroid;
          getCoordinates (coordinates vertex1);
          getCoordinates (coordinates vertex2)]) in
  Point_of areaVectorCoords.

End Triangle.

Module Quadrilateral.

Definition dimension : nat := 2.
Definition numberOfInnerFaces : nat := 4.
Definition numberOfFacets : nat := 4.

Definition q18 : Qc := Q2Qc (1 # 8).
Definition q38 : Qc := Q2Qc (3 # 8).
Definition q14 : Qc := Q2Qc (1 # 4).
Definition q12 : Qc := Q2Qc (1 # 2).
Definition q34 : Qc := Q2Qc (3 # 4).
Definition m14 : Qc := Q2Qc (-1 # 4).
Definition m12 : Qc := Q2Qc (-1 # 2).
Definition m34 : Qc := Q2Qc (-3 # 4).

Definition innerFaceShapeFunctionValues : Matrix :=
  [ [q38; q38; q18; q18]; [q18; q38; q38; q18];
    [q18; q18; q38; q38]; [q38; q18; q18; q38] ].

Definition innerFaceShapeFunctionDerivatives : list Matrix :=
  [ [[m34; m12]; [q34; m12]; [q14; q12]; [m14; q12]];
    [[m12; m14]; [q12; m34]; [q12; q34]; [m12; q14]];
    [[m14; m12]; [q14; m12]; [q34; q12]; [m34; q12]];
    [[m12; m34]; [q12; m14]; [q12; q14]; [m12; q34]] ].

Definition innerFaceNeighbourVertices : list (list nat) :=
  [[0; 1]; [1; 2]; [2; 3]; [3; 0]]%nat.

Definition _is (vertices : list Vertex) : bool :=
  bool_decide (length vertices = 4%nat).

(** As in the source, the two neighbour vertices are read from
    [Triangle.innerFaceNeighbourVertices]. *)
Definition getInnerFaceAreaVector
    (local : nat) (elementCentroid : Point) (elementVertices : list Vertex)
  : option Point :=
  row ← Triangle.innerFaceNeighbourVertices !! local;
  i1 ← row !! 0%nat;
  vertex1 ← elementVertices !! i1;
  i2 ← row !! 1%nat;
  vertex2 ← elementVertices !! i2;
  let areaVectorCoords :=
    sum_arrays
      (zip_with vscale [1; minus_half; minus_half]
         [getCoordinates elementCentroid;
          getCoordinates (coordinates vertex1);
          getCoordinates (coordinates vertex2)]) in
  Point_of areaVectorCoords.

End Quadrilateral.

(** The shape descriptor of an element, and the dispatch on it
    ([element.shape.<attribute>]). *)
Inductive Shape : Type := Triangle | Quadrilateral.

#[global] Instance Shape_eq_dec : EqDecision Shape.
Proof. solve_decision. Defined.

Definition dimension (sh : Shape) : nat :=
  match sh with
  | Triangle => Triangle.dimension
  | Quadrilateral => Quadrilateral.dimension
  end.

Definition numberOfInnerFaces (sh : Shape) : nat :=
  match sh with
  | Triangle => Triangle.numberOfInnerFaces
  | Quadrilateral => Quadrilateral.numberOfInnerFaces
  end.

Definition innerFaceShapeFunctionValues (sh : Shape) : Matrix :=
  match sh with
  | Triangle => Triangle.innerFaceShapeFunctionValues
  | Quadrilateral => Quadrilateral.innerFaceShapeFunctionValues
  end.

Definition innerFaceShapeFunctionDerivatives (sh : Shape) : list Matrix :=
  match sh with
  | Triangle => Triangle.innerFaceShapeFunctionDerivatives
  | Quadrilateral => Quadrilateral.innerFaceShapeFunctionDerivatives
  end.

Definition innerFaceNeighbourVertices (sh : Shape) : list (list nat) :=
  match sh with
  | Triangle => Triangle.innerFaceNeighbourVertices
  | Quadrilateral => Quadrilateral.innerFaceNeighbourVertices
  end.

Definition _is (sh : Shape) : list Vertex → bool :=
  match sh with
  | Triangle => Triangle._is
  | Quadrilateral => Quadrilateral._is
  end.

Definition getInnerFaceAreaVector (sh : Shape)
  : nat → Point → list Vertex → option Point :=
  match sh with
  | Triangle => Triangle.getInnerFaceAreaVector
  | Quadrilateral => Quadrilateral.getInnerFaceAreaVector
  end.

(** The area vector as the specification words it:
    [centroid − 0.5·v1 − 0.5·v2], with [v1], [v2] taken from the
    topology's own [innerFaceNeighbourVertices] table at row [local]. *)
Definition areaVector_spec (sh : Shape)
    (local : nat) (elementCentroid : Point) (elementVertices : list Vertex)
  : option Point :=
  row ← innerFaceNeighbourVertices sh !! local;
  i1 ← row !! 0%nat;
  v1 ← coordinates <$> elementVertices !! i1;
  i2 ← row !! 1%nat;
  v2 ← coordinates <$> elementVertices !! i2;
  Some (mkPoint (px elementCentroid - half * px v1 - half * px v2)
                (py elementCentroid - half * py v1 - half * py v2)
                (pz elementCentroid - half * pz v1 - half * pz v2)).

(** ** Elements and inner faces *)

(** An inner face; the back reference [self.element] is passed along with the
    face instead of being stored in it. *)
Record InnerFace : Type := mkInnerFace {
  face_handle : nat;
  local : nat;
  area : Point;
  centroid : Point;
  globalDerivatives : Matrix
}.

(** Modelled from the spec: class [Element] (its file is not among the
    sources): the ordered vertices, the shape descriptor selected by the
    vertex count, the owned inner faces and the sub-element volumes. *)
Record Element : Type := mkElement {
  vertices : list Vertex;
  shape : Shape;
  innerFaces : list InnerFace;
  subelementVolumes : Vector
}.

Definition set_globalDerivatives (G : Matrix) (f : InnerFace) : InnerFace :=
  mkInnerFace (face_handle f) (local f) (area f) (centroid f) G.

Definition set_centroid (c : Point) (f : InnerFace) : InnerFace :=
  mkInnerFace (face_handle f) (local f) (area f) c (globalDerivatives f).

Definition set_innerFaces (fs : list InnerFace) (e : Element) : Element :=
  mkElement (vertices e) (shape e) fs (subelementVolumes e).

(** The vertex coordinates of an element, one row per vertex, restricted to
    the [dimension] of its shape. *)
Definition vertexCoordinates (element : Element) : Matrix :=
  (λ vertex, take (dimension (shape element))
               (getCoordinates (coordinates vertex))) <$> vertices element.

(** Modelled from the spec: the Jacobian matrix of the coordinate map (spec
    4.2 and glossary; the [Element] class is not among the sources), the
    contraction of the vertex coordinates with the derivative table,
    [J[a][b] = sum_i x_i[a] * derivatives[i][b]]. *)
Definition Jacobian (element : Element) (derivatives : Matrix)
  : option Matrix :=
  matmul (transpose (vertexCoordinates element)) derivatives.

(** Modelled from the spec: [Element.getTransposedJacobian], which is not
    among the sources: the matrix that spec 4.3 has
    [calculateGlobalDerivatives] invert,
    [transpose(Jacobian(localDerivatives))]. *)
Definition getTransposedJacobian (element : Element) (derivatives : Matrix)
  : option Matrix :=
  transpose <$> Jacobian element derivatives.

(** Modelled from the spec: [Element.getJacobian], which is not among the
    sources.  Spec 4.2 describes it in one sentence with
    [getTransposedJacobian], and spec 4.3 has the refresh at solver setup,
    which calls it, recompute the matrix of [calculateGlobalDerivatives]
    identically: the two names are taken to return the same matrix. *)
Definition getJacobian (element : Element) (derivatives : Matrix)
  : option Matrix :=
  getTransposedJacobian element derivatives.


Module InnerFace.

Definition evalCentroid (element : Element) (self : InnerFace)
  : option InnerFace :=
  shapeFunctionValues ← innerFaceShapeFunctionValues (shape element) !! local self;
  let coords :=
    foldl (λ coords vw, vadd coords
             (vscale vw.2 (getCoordinates (coordinates vw.1))))
          [0; 0; 0] (zip (vertices element) shapeFunctionValues) in
  c ← Point_of coords;
  Some (set_centroid c self).

Definition calculateGlobalDerivatives (element : Element) (self : InnerFace)
  : option InnerFace :=
  derivatives ← innerFaceShapeFunctionDerivatives (shape element) !! local self;
  jacobian ← getTransposedJacobian element derivatives;
  inverse ← linalg_inv jacobian;
  G ← matmul inverse (transpose derivatives);
  Some (set_globalDerivatives G self).

Definition __init__ (element : Element) (handle local : nat)
  : option InnerFace :=
  let self := mkInnerFace handle local (mkPoint 0 0 0) (mkPoint 0 0 0) [] in
  self ← evalCentroid element self;
  calculateGlobalDerivatives element self.

End InnerFace.

(** ** HeatTransfer2D.py: the local matrix *)

(** The body of the inner loop [for i in range(numberOfVertices)]. *)
Definition scatterCoefficient (diffusiveFlux : Vector)
    (backwardVertexLocalHandle forwardVertexLocalHandle : nat)
    (i : nat) (localMatrix : Matrix) : option Matrix :=
  flux_i ← diffusiveFlux !! i;
  let coefficient := minus_one * flux_i in
  localMatrix ← add_at backwardVertexLocalHandle i coefficient localMatrix;
  sub_at forwardVertexLocalHandle i coefficient localMatrix.

Definition scatterFlux (numberOfVertices : nat) (diffusiveFlux : Vector)
    (backwardVertexLocalHandle forwardVertexLocalHandle : nat)
    (localMatrix : Matrix) : option Matrix :=
  for_each (seq 0 numberOfVertices)
    (scatterCoefficient diffusiveFlux
       backwardVertexLocalHandle forwardVertexLocalHandle) localMatrix.

(** [permeability * matmul(transpose(derivatives[:-1]), area[:-1])], after
    the padding of a two-row [derivatives] with a row of zeros. *)
Definition diffusiveFlux (permeability : Qc) (innerFace : InnerFace)
  : option Vector :=
  let derivatives := globalDerivatives innerFace in
  let derivatives :=
    if bool_decide (length derivatives = 2%nat)
    then derivatives ++ [zeros (length (default [] (derivatives !! 0%nat)))]
    else derivatives in
  product ← matvec (transpose (drop_last derivatives))
                   (drop_last (getCoordinates (area innerFace)));
  Some (vscale permeability product).

(** The body of [for innerFace in element.innerFaces]. *)
Definition addInnerFace (element : Element) (permeability : Qc)
    (innerFace : InnerFace) (localMatrix : Matrix) : option Matrix :=
  let numberOfVertices := length (vertices element) in
  flux ← diffusiveFlux permeability innerFace;
  row ← innerFaceNeighbourVertices (shape element) !! local innerFace;
  backwardVertexLocalHandle ← row !! 0%nat;
  forwardVertexLocalHandle ← row !! 1%nat;
  scatterFlux numberOfVertices flux
    backwardVertexLocalHandle forwardVertexLocalHandle localMatrix.

Definition computeLocalMatrix (element : Element) (permeability : Qc) (b : bool)
  : option Matrix :=
  let numberOfVertices := length (vertices element) in
  let localMatrix := zeros2 numberOfVertices numberOfVertices in
  for_each (innerFaces element) (addInnerFace element permeability) localMatrix.

(** ** HeatTransfer2D.py: the solver *)

(** The part of numpy's linear algebra that is not written out. *)
Class Linalg : Type := {
  linalg_norm : Vector → Qc;
  linalg_solve : Matrix → Vector → option Vector
}.

(** Modelled from the spec: the mesh graph and the problem configuration that
    the solver consumes (their files are not among the sources). *)
Record Region : Type := mkRegion {
  region_handle : nat;
  (** the region's elements, as indices into [grid.elements] *)
  region_elements : list nat
}.

Record Grid : Type := mkGrid {
  grid_vertices : list Vertex;
  grid_elements : list Element;
  regions : list Region
}.

Record OuterFace : Type := mkOuterFace {
  outerFace_handle : nat;
  outerFace_vertex : Vertex;
  outerFace_area : Point
}.

Record Facet : Type := mkFacet { outerFaces : list OuterFace }.

Record Boundary : Type := mkBoundary {
  boundary_vertices : list Vertex;
  facets : list Facet
}.

Record BoundaryCondition : Type := mkBoundaryCondition {
  boundary : Boundary;
  getValue : nat → Qc
}.

Record ProblemData2D : Type := mkProblemData2D {
  timeStep : Qc;
  finalTime : Qc;
  tolerance : Qc;
  maxNumberOfIterations : Z;
  initialValue : Qc;
  propertyData : list (gmap string Qc);
  neumannBoundaries : list BoundaryCondition;
  dirichletBoundaries : list BoundaryCondition
}.

(** Modelled from the spec: the timer's simulated clock, advanced by
    [timeStep] on each [incrementTime()]; the wall-clock spans of
    [start]/[stop] are not modelled. *)
Record Timer : Type := mkTimer { timer_timeStep : Qc; currentTime : Qc }.

Definition incrementTime (t : Timer) : Timer :=
  mkTimer (timer_timeStep t) (currentTime t + timer_timeStep t).

(** Modelled from the spec: the result sink: the fields it was given, oldest
    first, and whether it was finalized. *)
Record CgnsSaver : Type := mkCgnsSaver {
  saved : list (Vector * Qc);
  finalized : bool
}.

Definition save (field : Vector) (time : Qc) (c : CgnsSaver) : CgnsSaver :=
  mkCgnsSaver (saved c ++ [(field, time)]) (finalized c).

(** The attributes of a [HeatTransfer2D] object. *)
Record HeatTransfer2D : Type := mkHeatTransfer2D {
  problemData : ProblemData2D;
  grid : Grid;
  timer : Timer;
  cgnsSaver : CgnsSaver;
  numericalTemperature : Vector;
  oldTemperature : Vector;
  matrix : Matrix;
  independent : Vector;
  difference : Qc;
  iteration : Z;
  converged : bool
}.

Definition set_system (m : Matrix) (v : Vector) (self : HeatTransfer2D)
  : HeatTransfer2D :=
  mkHeatTransfer2D (problemData self) (grid self) (timer self) (cgnsSaver self)
    (numericalTemperature self) (oldTemperature self) m v
    (difference self) (iteration self) (converged self).


Definition set_numericalTemperature (v : Vector) (self : HeatTransfer2D)
  : HeatTransfer2D :=
  mkHeatTransfer2D (problemData self) (grid self) (timer self) (cgnsSaver self)
    v (oldTemperature self) (matrix self) (independent self)
    (difference self) (iteration self) (converged self).

Definition set_timer (t : Timer) (self : HeatTransfer2D) : HeatTransfer2D :=
  mkHeatTransfer2D (problemData self) (grid self) t (cgnsSaver self)
    (numericalTemperature self) (oldTemperature self) (matrix self)
    (independent self) (difference self) (iteration self) (converged self).

Definition set_cgnsSaver (c : CgnsSaver) (self : HeatTransfer2D)
  : HeatTransfer2D :=
  mkHeatTransfer2D (problemData self) (grid self) (timer self) c
    (numericalTemperature self) (oldTemperature self) (matrix self)
    (independent self) (difference self) (iteration self) (converged self).

Definition set_convergence (d : Qc) (old : Vector) (self : HeatTransfer2D)
  : HeatTransfer2D :=
  mkHeatTransfer2D (problemData self) (grid self) (timer self) (cgnsSaver self)
    (numericalTemperature self) old (matrix self) (independent self)
    d (iteration self) (converged self).

Definition set_progress (c : bool) (i : Z) (self : HeatTransfer2D)
  : HeatTransfer2D :=
  mkHeatTransfer2D (problemData self) (grid self) (timer self) (cgnsSaver self)
    (numericalTemperature self) (oldTemperature self) (matrix self)
    (independent self) (difference self) i c.

(** [self.problemData.propertyData[region.handle][key]] *)
Definition property (pd : ProblemData2D) (region : Region) (key : string)
  : option Qc :=
  properties ← propertyData pd !! region_handle region;
  properties !! key.

(** [region.elements], read through the grid's element store. *)
Definition regionElements (g : Grid) (region : Region) : option (list Element) :=
  mapM (λ i, grid_elements g !! i) (region_elements region).

(** *** calculateInnerFacesGlobalDerivatives *)

Definition refreshInnerFace (element : Element) (innerFace : InnerFace)
  : option InnerFace :=
  derivatives ←
    innerFaceShapeFunctionDerivatives (shape element) !! local innerFace;
  jacobian ← getJacobian element derivatives;
  inverse ← linalg_inv jacobian;
  G ← matmul inverse (transpose derivatives);
  Some (set_globalDerivatives G innerFace).

Definition refreshElement (element : Element) : option Element :=
  faces ← mapM (refreshInnerFace element) (innerFaces element);
  Some (set_innerFaces faces element).

Definition calculateInnerFacesGlobalDerivatives (g : Grid) : option Grid :=
  elements ← mapM refreshElement (grid_elements g);
  Some (mkGrid (grid_vertices g) elements (regions g)).

(** *** addToLinearSystem *)

(** [# Internal Heat Generation] *)
Definition internalHeatGeneration (pd : ProblemData2D) (g : Grid)
    (independent : Vector) : option Vector :=
  for_each (regions g) (λ region independent,
    heatGeneration ← property pd region "InternalHeatGeneration";
    elements ← regionElements g region;
    for_each elements (λ element independent,
      for_each (vertices element) (λ vertex independent,
        assign (handle vertex) (volume vertex * heatGeneration) independent)
      independent) independent) independent.

(** The body of [for vertex in element.vertices] in the transient and
    diffusive pass; [local] is the position of [vertex] in the element. *)
Definition scatterVertex (iteration : Z) (oldTemperature : Vector)
    (element : Element) (accumulation : Qc) (localMatrixFlux : Matrix)
    (lv : nat * Vertex) (system : Matrix * Vector) : option (Matrix * Vector) :=
  let local := lv.1 in
  let vertex := lv.2 in
  let index := handle vertex in
  subelementVolume ← subelementVolumes element !! local;
  old ← oldTemperature !! handle vertex;
  independent ← add_to index (subelementVolume * accumulation * old) system.2;
  if (iteration =? 0)%Z then
    matrix ← add_at index index (subelementVolume * accumulation) system.1;
    matrix ← for_each (enumerate_from 0 (vertices element)) (λ lq matrix,
               row ← localMatrixFlux !! local;
               x ← row !! lq.1;
               add_at index (handle lq.2) x matrix) matrix;
    Some (matrix, independent)
  else Some (system.1, independent).

(** [# TransientTermAdder and DiffusiveFluxAdder] *)
Definition transientTermAdder (pd : ProblemData2D) (g : Grid) (t : Timer)
    (iteration : Z) (oldTemperature : Vector) (system : Matrix * Vector)
  : option (Matrix * Vector) :=
  for_each (regions g) (λ region system,
    density ← property pd region "Density";
    heatCapacity ← property pd region "HeatCapacity";
    conductivity ← property pd region "Conductivity";
    (* a division by zero raises *)
    guard (timer_timeStep t ≠ 0);;
    let accumulation := density * heatCapacity / timer_timeStep t in
    elements ← regionElements g region;
    for_each elements (λ element system,
      localMatrixFlux ←
        computeLocalMatrix element conductivity (iteration =? 0)%Z;
      for_each (enumerate_from 0 (vertices element))
        (scatterVertex iteration oldTemperature element accumulation
           localMatrixFlux) system) system) system.

(** [# NeumannBoundaryAdder] *)
Definition neumannBoundaryAdder `{Linalg} (pd : ProblemData2D)
    (independent : Vector) : option Vector :=
  for_each (neumannBoundaries pd) (λ bCondition independent,
    for_each (facets (boundary bCondition)) (λ facet independent,
      for_each (outerFaces facet) (λ outerFace independent,
        add_to (handle (outerFace_vertex outerFace))
          (minus_one * getValue bCondition (outerFace_handle outerFace)
           * linalg_norm (getCoordinates (outerFace_area outerFace)))
          independent) independent) independent) independent.

(** [# DirichletBoundaryAdder] *)
Definition dirichletBoundaryAdder (pd : ProblemData2D) (independent : Vector)
  : option Vector :=
  for_each (dirichletBoundaries pd) (λ bCondition independent,
    for_each (boundary_vertices (boundary bCondition)) (λ vertex independent,
      assign (handle vertex) (getValue bCondition (handle vertex)) independent)
    independent) independent.

(** The rows of the Dirichlet vertices, fixed under [if self.iteration == 0];
    the unused array [rows] of the source is left out. *)
Definition dirichletRows (pd : ProblemData2D) (numberOfVertices : nat)
    (matrix : Matrix) : option Matrix :=
  for_each (dirichletBoundaries pd) (λ bCondition matrix,
    for_each (boundary_vertices (boundary bCondition)) (λ vertex matrix,
      guard (handle vertex < length matrix)%nat;;
      let matrix := <[handle vertex := zeros numberOfVertices]> matrix in
      guard (handle vertex < numberOfVertices)%nat;;
      Some (<[handle vertex := <[handle vertex := 1]> (zeros numberOfVertices)]>
              matrix)) matrix) matrix.

Definition addToLinearSystem `{Linalg} (self : HeatTransfer2D)
  : option HeatTransfer2D :=
  let pd := problemData self in
  let size := length (grid_vertices (grid self)) in
  let independent := zeros size in
  independent ← internalHeatGeneration pd (grid self) independent;
  system ← transientTermAdder pd (grid self) (timer self) (iteration self)
              (oldTemperature self) (matrix self, independent);
  independent ← neumannBoundaryAdder pd system.2;
  independent ← dirichletBoundaryAdder pd independent;
  matrix ← (if (iteration self =? 0)%Z
            then dirichletRows pd size system.1
            else Some system.1);
  Some (set_system matrix independent self).

(** *** solveLinearSystem, checkConvergence *)

Definition solveLinearSystem `{Linalg} (self : HeatTransfer2D)
  : option HeatTransfer2D :=
  x ← linalg_solve (matrix self) (independent self);
  Some (set_numericalTemperature x self).

(** Returns the flag together with the updated object. *)
Definition checkConvergence (self : HeatTransfer2D)
  : option (bool * HeatTransfer2D) :=
  difference ←
    py_max (zip_with (λ temp oldTemp, Qcabs.Qcabs (temp - oldTemp))
              (numericalTemperature self) (oldTemperature self));
  let self' := set_convergence difference (numericalTemperature self) self in
  let converged :=
    if bool_decide (finalTime (problemData self) < currentTime (timer self))
    then true
    else if bool_decide (0 < iteration self)%Z
         then bool_decide (difference < tolerance (problemData self))
         else false in
  Some (converged, self').

(** *** settings, run, finalize, __init__ *)

(** [settings]; the problem data and the grid come from the readers, which
    are outside the model.  [self.independent] does not exist before the
    first assembly and starts as the empty array. *)
Definition settings (pd : ProblemData2D) (g : Grid) : option HeatTransfer2D :=
  g' ← calculateInnerFacesGlobalDerivatives g;
  let size := length (grid_vertices g') in
  Some (mkHeatTransfer2D pd g' (mkTimer (timeStep pd) 0) (mkCgnsSaver [] false)
          (zeros size) (replicate size (initialValue pd))
          (zeros2 size size) [] 0 0%Z false).

(** The body of the [while] loop of [run]; console output is left out. *)
Definition run_body `{Linalg} (self : HeatTransfer2D) : option HeatTransfer2D :=
  self ← addToLinearSystem self;
  self ← solveLinearSystem self;
  let self := set_timer (incrementTime (timer self)) self in
  let self :=
    set_cgnsSaver (save (numericalTemperature self) (currentTime (timer self))
                     (cgnsSaver self)) self in
  r ← checkConvergence self;
  Some (set_progress r.1 (iteration r.2 + 1)%Z r.2).

(** How a possibly looping call ends within a number of loop iterations. *)
Inductive Outcome (A : Type) : Type :=
  | OutOfFuel
  | Raised
  | Returned (a : A).
Arguments OutOfFuel {A}.
Arguments Raised {A}.
Arguments Returned {A} a.

Definition loop_condition (self : HeatTransfer2D) : bool :=
  negb (converged self)
  && (iteration self <? maxNumberOfIterations (problemData self))%Z.

(** [run]: the [while] loop, unrolled at most [fuel] times. *)
Fixpoint run `{Linalg} (fuel : nat) (self : HeatTransfer2D)
  : Outcome HeatTransfer2D :=
  if loop_condition self then
    match fuel with
    | O => OutOfFuel
    | S fuel' =>
        match run_body self with
        | None => Raised
        | Some self' => run fuel' self'
        end
    end
  else Returned self.

Definition finalize (self : HeatTransfer2D) : HeatTransfer2D :=
  set_cgnsSaver (mkCgnsSaver (saved (cgnsSaver self)) true) self.

Definition __init__ `{Linalg} (fuel : nat) (pd : ProblemData2D) (g : Grid)
  : Outcome HeatTransfer2D :=
  match settings pd g with
  | None => Raised
  | Some self =>
      match run fuel self with
      | Returned self' => Returned (finalize self')
      | OutOfFuel => OutOfFuel
      | Raised => Raised
      end
  end.

(** ** Vocabulary of the properties *)

(** Column [j] of a matrix, and the sums of a column and of a row. *)
Definition column (j : nat) (M : Matrix) : Vector :=
  (λ row, default 0 (row !! j)) <$> M.
Definition colsum (j : nat) (M : Matrix) : Qc := vsum (column j M).
Definition rowsum (k : nat) (M : Matrix) : Qc := vsum (default [] (M !! k)).

(** An [n] x [n] array. *)
Definition square (n : nat) (M : Matrix) : Prop :=
  length M = n ∧ Forall (λ row, length row = n) M.

(** The indicator of [i = k]. *)
Definition ind (i k : nat) : Qc := if bool_decide (i = k) then 1 else 0.

(** A sequence of array assignments [v[h] = x], applied in order, and the
    value that the last assignment to index [h] stores, if there is one. *)
Definition apply_writes (ws : list (nat * Qc)) (v : Vector) : option Vector :=
  for_each ws (λ w v, assign w.1 w.2 v) v.

Fixpoint last_write (h : nat) (ws : list (nat * Qc)) : option Qc :=
  match ws with
  | [] => None
  | w :: ws' =>
      match last_write h ws' with
      | Some x => Some x
      | None => if bool_decide (w.1 = h) then Some w.2 else None
      end
  end.

(** The vertices that the internal-heat-generation pass visits, in the order
    of the region, element and vertex loops, as pairs of the vertex handle
    and [vertex.volume * heatGeneration] of the region being visited. *)
Definition regionVisits (pd : ProblemData2D) (g : Grid) (region : Region)
  : option (list (nat * Qc)) :=
  heatGeneration ← property pd region "InternalHeatGeneration";
  elements ← regionElements g region;
  Some (element ← elements;
        (λ vertex, (handle vertex, volume vertex * heatGeneration))
          <$> vertices element).

Definition internalHeatGenerationVisits (pd : ProblemData2D) (g : Grid)
  : option (list (nat * Qc)) :=
  mjoin <$> mapM (regionVisits pd g) (regions g).

(** The assignments of the Dirichlet pass, in loop order. *)
Definition dirichletWrites (pd : ProblemData2D) : list (nat * Qc) :=
  bCondition ← dirichletBoundaries pd;
  (λ vertex, (handle vertex, getValue bCondition (handle vertex)))
    <$> boundary_vertices (boundary bCondition).

(** ** Example data *)

Definition two : Qc := 1 + 1.
Definition Point2 (a b : Qc) : Point := mkPoint a b 0.

(** The unit square, counter-clockwise from the origin. *)
Definition unit_square : list Vertex :=
  [ mkVertex 0 (Point2 0 0) 1; mkVertex 1 (Point2 1 0) 1;
    mkVertex 2 (Point2 1 1) 1; mkVertex 3 (Point2 0 1) 1 ].

(** The triangle (0,0), (1,0), (1,1): its Jacobian is not symmetric. *)
Definition skew_triangle_vertices : list Vertex :=
  [ mkVertex 0 (Point2 0 0) half; mkVertex 1 (Point2 1 0) half;
    mkVertex 2 (Point2 1 1) half ].

(** An inner face as [InnerFace.__init__] leaves it before the derivatives
    are computed, with the area vector that the element assigns. *)
Definition bare_face (local : nat) (area : Point) : InnerFace :=
  mkInnerFace local local area (mkPoint 0 0 0) [].

Definition skew_triangle : Element :=
  mkElement skew_triangle_vertices Triangle
    [ bare_face 0 (Point2 1 two); bare_face 1 (Point2 minus_one 1);
      bare_face 2 (Point2 half minus_one) ]
    [Triangle.q16; Triangle.q16; Triangle.q16].

(** The reference triangle (0,0), (1,0), (0,1), whose Jacobian is the
    identity matrix, with the face areas (0.1, 0.2), (0.3, 0.1), (0.2, 0.3). *)
Definition tenths (n : Z) : Qc := Q2Qc (n # 10).

Definition reference_triangle : Element :=
  mkElement
    [ mkVertex 0 (Point2 0 0) half; mkVertex 1 (Point2 1 0) half;
      mkVertex 2 (Point2 0 1) half ]
    Triangle
    [ bare_face 0 (Point2 (tenths 1) (tenths 2));
      bare_face 1 (Point2 (tenths 3) (tenths 1));
      bare_face 2 (Point2 (tenths 2) (tenths 3)) ]
    [Triangle.q16; Triangle.q16; Triangle.q16].

(** An element whose inner faces carry made-up derivative matrices, one of
    two rows and one of three, unrelated to its geometry. *)
Definition unrelated_element : Element :=
  mkElement skew_triangle_vertices Triangle
    [ mkInnerFace 0 0 (Point2 1 two) (Point2 0 0)
        [[1; two; half]; [minus_one; 0; two]];
      mkInnerFace 1 2 (mkPoint two half 1) (Point2 0 0)
        [[two; two; 1]; [0; half; 1]; [1; 1; 1]] ]
    [Triangle.q16; Triangle.q16; Triangle.q16].

Definition unrelated_local_matrix : Matrix :=
  Eval vm_compute in default [] (computeLocalMatrix unrelated_element two true).

Definition skew_triangle_refreshed : Element :=
  Eval vm_compute in default skew_triangle (refreshElement skew_triangle).

(** The object after [k] passes through the body of the [while] loop of
    [run]; [None] when one of the passes raised. *)
Fixpoint passes `{Linalg} (k : nat) (self : HeatTransfer2D)
  : option HeatTransfer2D :=
  match k with
  | O => Some self
  | S k' => self' ← run_body self; passes k' self'
  end.

(** numpy on the systems of the examples: the norm of a vector with at most
    one coordinate that is not zero, and the solution of a diagonal system
    (any other system is refused). *)
Definition axis_norm (v : Vector) : Qc := vsum (Qcabs.Qcabs <$> v).

Definition solve_diagonal (M : Matrix) (b : Vector) : option Vector :=
  guard (length M = length b);;
  mapM (λ irb : nat * (Vector * Qc),
          let i := irb.1 in
          let row := irb.2.1 in
          let pivot := default 0 (row !! i) in
          guard (row = <[i := pivot]> (zeros (length b)));;
          guard (pivot ≠ 0);;
          Some (irb.2.2 / pivot))
       (enumerate_from 0 (zip M b)).

Definition example_linalg : Linalg :=
  {| linalg_norm := axis_norm; linalg_solve := solve_diagonal |}.

(** The unit square cut along its diagonal into two triangles, one region
    each; every vertex lies on a Dirichlet boundary, the left edge on a
    Neumann boundary as well.  The tolerance is zero, so that no run
    converges. *)
Definition third : Qc := Q2Qc (1 # 3).
Definition five : Qc := Q2Qc (5 # 1).
Definition seven : Qc := Q2Qc (7 # 1).

Definition vertex_0 : Vertex := mkVertex 0 (Point2 0 0) third.
Definition vertex_1 : Vertex := mkVertex 1 (Point2 1 0) Triangle.q16.
Definition vertex_2 : Vertex := mkVertex 2 (Point2 1 1) third.
Definition vertex_3 : Vertex := mkVertex 3 (Point2 0 1) Triangle.q16.

Definition lower_triangle : Element :=
  mkElement [vertex_0; vertex_1; vertex_2] Triangle
    [ bare_face 0 (Point2 1 two); bare_face 1 (Point2 minus_one 1);
      bare_face 2 (Point2 half minus_one) ]
    [Triangle.q16; Triangle.q16; Triangle.q16].

Definition upper_triangle : Element :=
  mkElement [vertex_0; vertex_2; vertex_3] Triangle
    [ bare_face 0 (Point2 two 1); bare_face 1 (Point2 1 minus_one);
      bare_face 2 (Point2 minus_one half) ]
    [Triangle.q16; Triangle.q16; Triangle.q16].

Definition example_grid : Grid :=
  mkGrid [vertex_0; vertex_1; vertex_2; vertex_3]
    [lower_triangle; upper_triangle]
    [mkRegion 0 [0%nat]; mkRegion 1 [1%nat]].

Definition example_properties (heatGeneration : Qc) : gmap string Qc :=
  {[ "Density" := 1; "HeatCapacity" := two; "Conductivity" := half;
     "InternalHeatGeneration" := heatGeneration ]}.

Definition example_problem : ProblemData2D :=
  {| timeStep := 1;
     finalTime := Q2Qc (100 # 1);
     tolerance := 0;
     maxNumberOfIterations := 3;
     initialValue := 0;
     propertyData := [example_properties two; example_properties five];
     neumannBoundaries :=
       [ mkBoundaryCondition
           (mkBoundary []
              [mkFacet [ mkOuterFace 0 vertex_3 (Point2 minus_half 0);
                         mkOuterFace 1 vertex_0 (Point2 minus_half 0) ]])
           (λ _, 1) ];
     dirichletBoundaries :=
       [ mkBoundaryCondition (mkBoundary [vertex_0; vertex_1] []) (λ _, five);
         mkBoundaryCondition (mkBoundary [vertex_1; vertex_2] []) (λ _, seven);
         mkBoundaryCondition (mkBoundary [vertex_2; vertex_3] []) (λ _, five) ]
  |}.

(** The object of the example run after [settings], after the first loop
    iteration, and after the assembly of the second. *)
Definition blank : HeatTransfer2D :=
  mkHeatTransfer2D example_problem example_grid (mkTimer 1 0)
    (mkCgnsSaver [] false) [] [] [] [] 0 0%Z false.

Definition example_initial : HeatTransfer2D :=
  default blank (settings example_problem example_grid).

Definition example_later : HeatTransfer2D :=
  default blank (@run_body example_linalg example_initial).

Definition example_assembled : HeatTransfer2D :=
  default blank (@addToLinearSystem example_linalg example_later).

(** ** InnerFace.py: the Voigt gradient operator *)

(** [InnerFace.getVoigtGradientOperator]: the array
    [[[Nx, zero], [zero, Ny], [Ny, Nx]]], which the method also keeps in
    [self.voigtGradientOperator]; unpacking [Nx, Ny] raises unless
    [globalDerivatives] has exactly two rows. *)
Definition getVoigtGradientOperator (self : InnerFace)
  : option (list (list Vector)) :=
  first_row ← globalDerivatives self !! 0%nat;
  let zero := zeros (length first_row) in
  match globalDerivatives self with
  | [Nx; Ny] => Some [[Nx; zero]; [zero; Ny]; [Ny; Nx]]
  | _ => None
  end.

(** ** Vocabulary of the further properties *)

#[global] Instance InnerFace_eq_dec : EqDecision InnerFace.
Proof. solve_decision. Defined.
#[global] Instance Element_eq_dec : EqDecision Element.
Proof. solve_decision. Defined.

(** The entry [M[r][i]] of a matrix (zero outside it). *)
Definition entry (r i : nat) (M : Matrix) : Qc :=
  default 0 (row ← M !! r; row !! i).

(** What one inner face adds to the entry [(r, i)] of the local matrix: its
    flux [i], counted positive in the row of the forward neighbour and
    negative in the row of the backward neighbour. *)
Definition faceContribution (sh : Shape) (permeability : Qc)
    (innerFace : InnerFace) (r i : nat) : Qc :=
  match diffusiveFlux permeability innerFace,
        innerFaceNeighbourVertices sh !! local innerFace with
  | Some flux, Some row =>
      match row !! 0%nat, row !! 1%nat with
      | Some back, Some fwd => (ind fwd r - ind back r) * default 0 (flux !! i)
      | _, _ => 0
      end
  | _, _ => 0
  end.

(** An inner face whose derivative matrix is a 2 x [n] array and whose local
    index is in the shape's tables. *)
Definition wellShapedFace (sh : Shape) (n : nat) (innerFace : InnerFace) : Prop :=
  (local innerFace < numberOfInnerFaces sh)%nat
  ∧ length (globalDerivatives innerFace) = 2%nat
  ∧ Forall (λ row, length row = n) (globalDerivatives innerFace).

(** Row [h] of the identity matrix of size [n]. *)
Definition unit_row (n h : nat) : Vector := <[h := 1]> (zeros n).

(** The handles of the Dirichlet vertices, in loop order. *)
Definition dirichletHandles (pd : ProblemData2D) : list nat :=
  bCondition ← dirichletBoundaries pd;
  handle <$> boundary_vertices (boundary bCondition).



(** The property keys that the assembly reads for every region. *)
Definition propertyKeys : list string :=
  ["InternalHeatGeneration"; "Density"; "HeatCapacity"; "Conductivity"].

(** The example problem with the properties of the second region missing,
    and with a Dirichlet vertex whose handle is not in the grid. *)
Definition incomplete_problem : ProblemData2D :=
  {| timeStep := 1; finalTime := 1; tolerance := 0;
     maxNumberOfIterations := 3; initialValue := 0;
     propertyData := [example_properties two];
     neumannBoundaries := []; dirichletBoundaries := [] |}.

Definition stray_problem : ProblemData2D :=
  {| timeStep := 1; finalTime := 1; tolerance := 0;
     maxNumberOfIterations := 3; initialValue := 0;
     propertyData := [example_properties two; example_properties five];
     neumannBoundaries := [];
     dirichletBoundaries :=
       [ mkBoundaryCondition
           (mkBoundary [vertex_0; mkVertex 4 (Point2 two two) 1] [])
           (λ _, five) ] |}.

Definition with_problem (pd : ProblemData2D) (self : HeatTransfer2D)
  : HeatTransfer2D :=
  mkHeatTransfer2D pd (grid self) (timer self) (cgnsSaver self)
    (numericalTemperature self) (oldTemperature self) (matrix self)
    (independent self) (difference self) (iteration self) (converged self).

(** The example problem with no iteration allowed. *)
Definition idle_problem : ProblemData2D :=
  {| timeStep := 1; finalTime := 1; tolerance := 0;
     maxNumberOfIterations := 0; initialValue := five;
     propertyData := [example_properties two; example_properties five];
     neumannBoundaries := []; dirichletBoundaries := [] |}.

(** The example problem with a tolerance of one, and the object of its run
    after the first loop iteration. *)
Definition tolerant_problem : ProblemData2D :=
  {| timeStep := timeStep example_problem;
     finalTime := finalTime example_problem;
     tolerance := 1;
     maxNumberOfIterations := maxNumberOfIterations example_problem;
     initialValue := initialValue example_problem;
     propertyData := propertyData example_problem;
     neumannBoundaries := neumannBoundaries example_problem;
     dirichletBoundaries := dirichletBoundaries example_problem |}.

Definition tolerant_later : HeatTransfer2D :=
  with_problem tolerant_problem example_later.

(** A well-formed element of a grid of [n] vertices: the vertex count fits the
    shape, the vertex handles are below [n], there is one sub-element volume
    per vertex, and the inner faces are well shaped. *)
Definition wellFormedElement (n : nat) (e : Element) : Prop :=
  _is (shape e) (vertices e) = true
  ∧ Forall (λ v, (handle v < n)%nat) (vertices e)
  ∧ length (subelementVolumes e) = length (vertices e)
  ∧ Forall (wellShapedFace (shape e) (length (vertices e))) (innerFaces e).

(** A well-formed region: it has the four properties of the problem data and
    names elements of the grid. *)
Definition wellFormedRegion (pd : ProblemData2D) (g : Grid) (region : Region)
  : Prop :=
  Forall (λ key, is_Some (property pd region key)) propertyKeys
  ∧ Forall (λ i, (i < length (grid_elements g))%nat) (region_elements region).

(** A well-formed solver object: the elements and regions are well formed,
    the time step is not zero, the old temperature and the matrix have the
    size of the grid, and the boundary conditions name vertices of the grid. *)
Definition wellFormed (self : HeatTransfer2D) : Prop :=
  let n := length (grid_vertices (grid self)) in
  let pd := problemData self in
  timer_timeStep (timer self) ≠ 0
  ∧ length (oldTemperature self) = n
  ∧ square n (matrix self)
  ∧ Forall (wellFormedElement n) (grid_elements (grid self))
  ∧ Forall (wellFormedRegion pd (grid self)) (regions (grid self))
  ∧ Forall (λ bCondition,
              Forall (λ facet,
                        Forall (λ outerFace,
                                  (handle (outerFace_vertex outerFace) < n)%nat)
                          (outerFaces facet))
                (facets (boundary bCondition)))
      (neumannBoundaries pd)
  ∧ Forall (λ bCondition,
              Forall (λ vertex, (handle vertex < n)%nat)
                (boundary_vertices (boundary bCondition)))
      (dirichletBoundaries pd).

(** Well-formedness can be checked by evaluation. *)
#[global] Instance wellShapedFace_dec sh n innerFace :
  Decision (wellShapedFace sh n innerFace).
Proof. unfold wellShapedFace. apply _. Defined.

#[global] Instance wellFormedElement_dec n e : Decision (wellFormedElement n e).
Proof. unfold wellFormedElement. apply _. Defined.

#[global] Instance wellFormedRegion_dec pd g region :
  Decision (wellFormedRegion pd g region).
Proof. unfold wellFormedRegion. apply _. Defined.

#[global] Instance wellFormed_dec self : Decision (wellFormed self).
Proof. unfold wellFormed, square. simpl. apply _. Defined.

(** * numpy's float64

    The local matrix once more, with the scalars as numpy has them: IEEE 754
    binary64 numbers, every [+], [-], [*] and [/] rounded to nearest, ties to
    even (Rocq's primitive floats).  The definitions repeat those above line
    by line; only the arithmetic differs.  In the examples every product of
    [np.matmul] is exact (a factor is 0, 1 or -1), so that its inner products
    round once, in whatever order they are accumulated. *)
Module Binary64.

Import PrimFloat.

Definition Vector : Type := list float.
Definition Matrix : Type := list (list float).

Definition zeros (n : nat) : Vector := replicate n 0%float.
Definition zeros2 (n m : nat) : Matrix := replicate n (zeros m).
Definition vscale (w : float) (v : Vector) : Vector := mul w <$> v.

(** A sum accumulated from left to right, as [np.sum] and the inner products
    of [np.matmul] do on arrays this short. *)
Definition vsum (v : Vector) : float :=
  match v with
  | [] => 0%float
  | x :: v' => foldl add x v'
  end.

Definition dot (u v : Vector) : float := vsum (zip_with mul u v).

(** [np.transpose] of a two-dimensional array. *)
Fixpoint transpose (M : Matrix) : Matrix :=
  match M with
  | [] => []
  | [r] => (λ x, [x]) <$> r
  | r :: M' => zip_with cons r (transpose M')
  end.

(** [np.matmul] of a matrix and a vector; mismatched shapes raise. *)
Definition matvec (M : Matrix) (v : Vector) : option Vector :=
  guard (Forall (λ row, length row = length v) M);;
  Some ((λ row, dot row v) <$> M).

(** [M[r][c] += x] *)
Definition add_at (r c : nat) (x : float) (M : Matrix) : option Matrix :=
  row ← M !! r; old ← row !! c; Some (<[r := <[c := (old + x)%float]> row]> M).

(** [M[r][c] -= x] *)
Definition sub_at (r c : nat) (x : float) (M : Matrix) : option Matrix :=
  row ← M !! r; old ← row !! c; Some (<[r := <[c := (old - x)%float]> row]> M).

Record Point : Type := mkPoint { px : float; py : float; pz : float }.

Definition getCoordinates (p : Point) : Vector := [px p; py p; pz p].

Record Vertex : Type := mkVertex { handle : nat; coordinates : Point }.

Record InnerFace : Type := mkInnerFace {
  local : nat;
  area : Point;
  globalDerivatives : Matrix
}.

Record Element : Type := mkElement {
  vertices : list Vertex;
  shape : Shape;
  innerFaces : list InnerFace
}.

(** The body of the inner loop [for i in range(numberOfVertices)]. *)
Definition scatterCoefficient (diffusiveFlux : Vector)
    (backwardVertexLocalHandle forwardVertexLocalHandle : nat)
    (i : nat) (localMatrix : Matrix) : option Matrix :=
  flux_i ← diffusiveFlux !! i;
  let coefficient := (-1 * flux_i)%float in
  localMatrix ← add_at backwardVertexLocalHandle i coefficient localMatrix;
  sub_at forwardVertexLocalHandle i coefficient localMatrix.

Definition scatterFlux (numberOfVertices : nat) (diffusiveFlux : Vector)
    (backwardVertexLocalHandle forwardVertexLocalHandle : nat)
    (localMatrix : Matrix) : option Matrix :=
  for_each (seq 0 numberOfVertices)
    (scatterCoefficient diffusiveFlux
       backwardVertexLocalHandle forwardVertexLocalHandle) localMatrix.

(** [permeability * matmul(transpose(derivatives[:-1]), area[:-1])], after
    the padding of a two-row [derivatives] with a row of zeros. *)
Definition diffusiveFlux (permeability : float) (innerFace : InnerFace)
  : option Vector :=
  let derivatives := globalDerivatives innerFace in
  let derivatives :=
    if bool_decide (length derivatives = 2%nat)
    then derivatives ++ [zeros (length (default [] (derivatives !! 0%nat)))]
    else derivatives in
  product ← matvec (transpose (drop_last derivatives))
                   (drop_last (getCoordinates (area innerFace)));
  Some (vscale permeability product).

(** The body of [for innerFace in element.innerFaces]. *)
Definition addInnerFace (element : Element) (permeability : float)
    (innerFace : InnerFace) (localMatrix : Matrix) : option Matrix :=
  let numberOfVertices := length (vertices element) in
  flux ← diffusiveFlux permeability innerFace;
  row ← innerFaceNeighbourVertices (shape element) !! local innerFace;
  backwardVertexLocalHandle ← row !! 0%nat;
  forwardVertexLocalHandle ← row !! 1%nat;
  scatterFlux numberOfVertices flux
    backwardVertexLocalHandle forwardVertexLocalHandle localMatrix.

Definition computeLocalMatrix (element : Element) (permeability : float)
    (b : bool) : option Matrix :=
  let numberOfVertices := length (vertices element) in
  let localMatrix := zeros2 numberOfVertices numberOfVertices in
  for_each (innerFaces element) (addInnerFace element permeability) localMatrix.

(** Column [j] of a matrix, and the sums of a column and of a row. *)
Definition column (j : nat) (M : Matrix) : Vector :=
  (λ row, default 0%float (row !! j)) <$> M.
Definition colsum (j : nat) (M : Matrix) : float := vsum (column j M).
Definition rowsum (k : nat) (M : Matrix) : float := vsum (default [] (M !! k)).

(** *** Example data *)

(** The decimal literal [0.n] of the source language: the binary64 number
    nearest to [n / 10]. *)
Definition tenths (n : float) : float := (n / 10)%float.

Definition Point2 (x y : float) : Point := mkPoint x y 0.

(** The conductivity 0.3 of the examples. *)
Definition conductivity : float := tenths 3.

(** The reference triangle (0,0), (1,0), (0,1).  Its Jacobian is the identity
    matrix, and the global derivatives of each of its inner faces are the
    transposed derivative table of [Triangle]. *)
Definition reference_derivatives : Matrix := [[-1; 1; 0]; [-1; 0; 1]]%float.

Definition reference_triangle (area0 area1 area2 : Point) : Element :=
  mkElement
    [ mkVertex 0 (Point2 0 0); mkVertex 1 (Point2 1 0); mkVertex 2 (Point2 0 1) ]
    Triangle
    [ mkInnerFace 0 area0 reference_derivatives;
      mkInnerFace 1 area1 reference_derivatives;
      mkInnerFace 2 area2 reference_derivatives ].


(** Face areas (-0.5, 0.2), (-0.4, 0.1), (-0.2, 0.3). *)
Definition leaking_columns : Element :=
  reference_triangle (Point2 (tenths (-5)) (tenths 2))
    (Point2 (tenths (-4)) (tenths 1)) (Point2 (tenths (-2)) (tenths 3)).

(** Two inner faces with the derivative matrices [[1e16, 0, 0], [0, 0, 0]]
    and [[1, 0, 0], [0, 0, 0]] and the area vector (1, 0, 0). *)
Definition absorbed_flux : Element :=
  mkElement
    [ mkVertex 0 (Point2 0 0); mkVertex 1 (Point2 1 0); mkVertex 2 (Point2 0 1) ]
    Triangle
    [ mkInnerFace 0 (Point2 1 0) [[1e16; 0; 0]; [0; 0; 0]]%float;
      mkInnerFace 1 (Point2 1 0) [[1; 0; 0]; [0; 0; 0]]%float ].

(** The entries that the source computes on these elements, and the residue
    [2^-56], about 1.39e-17, that the rounded sums leave. *)
Definition residue : float := 0x1p-56%float.


Definition leaking_column : Vector :=
  [-0x1.eb851eb851eb8p-4; -0x1p-56; 0x1.eb851eb851eb8p-4]%float.

Definition absorbed_column : Vector := [-1e16; 1e16; 1]%float.

End Binary64.

(** * Properties *)

#[local] Arguments Qcplus : simpl never.
#[local] Arguments Qcmult : simpl never.
#[local] Arguments Qcopp : simpl never.
#[local] Arguments Qcminus : simpl never.
#[local] Arguments Qcinv : simpl never.
#[local] Arguments Qcdiv : simpl never.
#[local] Arguments Q2Qc : simpl never.
#[local] Arguments vsum : simpl never.

(** ** Scalars *)

Lemma minus_half_opp : minus_half = - half.
Proof. by_evaluation. Qed.

Lemma minus_one_opp : minus_one = - 1.
Proof. by_evaluation. Qed.

(** ** Shape.py: the inner-face area vector *)

Lemma area_coordinate (c a b : Qc) :
  0 + 1 * c + minus_half * a + minus_half * b = c - half * a - half * b.
Proof. rewrite minus_half_opp. ring. Qed.

(** [Triangle.getInnerFaceAreaVector] is the specified construction on the
    triangle's own table, for every index and every vertex list. *)
Lemma Triangle_getInnerFaceAreaVector_spec local c vs :
  Triangle.getInnerFaceAreaVector local c vs = areaVector_spec Triangle local c vs.
Proof.
  unfold Triangle.getInnerFaceAreaVector, areaVector_spec. simpl.
  destruct (Triangle.innerFaceNeighbourVertices !! local) as [row|]; simpl; [|done].
  destruct (row !! 0%nat) as [i1|]; simpl; [|done].
  destruct (vs !! i1) as [w1|]; simpl; [|done].
  destruct (row !! 1%nat) as [i2|]; simpl; [|done].
  destruct (vs !! i2) as [w2|]; simpl; [|done].
  by rewrite !area_coordinate.
Qed.

(** On the inner faces 0 and 1, where the two tables agree,
    [Quadrilateral.getInnerFaceAreaVector] is the specified construction. *)
Lemma Quadrilateral_getInnerFaceAreaVector_low local c vs :
  (local < 2)%nat →
  Quadrilateral.getInnerFaceAreaVector local c vs
  = areaVector_spec Quadrilateral local c vs.
Proof.
  intros Hlocal.
  assert (Htable : Quadrilateral.innerFaceNeighbourVertices !! local
                   = Triangle.innerFaceNeighbourVertices !! local).
  { destruct local as [|[|?]]; [done|done|lia]. }
  change (Quadrilateral.getInnerFaceAreaVector local c vs)
    with (Triangle.getInnerFaceAreaVector local c vs).
  rewrite Triangle_getInnerFaceAreaVector_spec.
  unfold areaVector_spec. simpl. by rewrite Htable.
Qed.

(** C1 (evaluation at the failing input).  On the unit square with centroid
    (1/2, 1/2), [Quadrilateral.getInnerFaceAreaVector] at inner face 2 pairs
    vertex 2 with vertex 0, the row [[2; 0]] of the triangle's table, where the
    quadrilateral's own row [[2; 3]] gives a different vector; at inner face 3
    it raises, the triangle's table having three rows, where the specified
    construction is defined. *)
Theorem Quadrilateral_getInnerFaceAreaVector_reads_Triangle_table :
  let c := Point2 half half in
  Quadrilateral.getInnerFaceAreaVector 2 c unit_square = Some (Point2 0 0)
  ∧ areaVector_spec Quadrilateral 2 c unit_square = Some (Point2 0 minus_half)
  ∧ Quadrilateral.getInnerFaceAreaVector 3 c unit_square = None
  ∧ areaVector_spec Quadrilateral 3 c unit_square = Some (Point2 half 0).
Proof. repeat split; by_evaluation. Qed.

(** ** Global derivatives: construction against refresh *)


(** On the triangle (0,0), (1,0), (1,1) the Jacobian is [[1; 1]; [0; 1]] and
    both computations give the gradients of the three shape functions. *)
Lemma refresh_reproduces_construction_example :
  let face := bare_face 0 (Point2 1 two) in
  Jacobian skew_triangle [[minus_one; minus_one]; [1; 0]; [0; 1]]
  = Some [[1; 1]; [0; 1]]
  ∧ globalDerivatives <$> refreshInnerFace skew_triangle face
    = Some [[minus_one; 1; 0]; [0; minus_one; 1]]
  ∧ globalDerivatives <$> InnerFace.calculateGlobalDerivatives skew_triangle face
    = Some [[minus_one; 1; 0]; [0; minus_one; 1]].
Proof. repeat split; by_evaluation. Qed.

(** ** computeLocalMatrix *)

(** C9.  The local matrix does not depend on the first-iteration flag. *)
Theorem computeLocalMatrix_flag_irrelevant element permeability :
  computeLocalMatrix element permeability true
  = computeLocalMatrix element permeability false.
Proof. reflexivity. Qed.

(** *** Loops *)

Lemma for_each_invariant {A S : Type} (P : S → Prop)
    (l : list A) (body : A → S → option S) :
  (∀ x s s', x ∈ l → body x s = Some s' → P s → P s') →
  ∀ s s', for_each l body s = Some s' → P s → P s'.
Proof.
  induction l as [|x l IH]; intros Hbody s s' Hrun HP; simpl in Hrun.
  - by simplify_eq.
  - destruct (body x s) as [s1|] eqn:Hx; simpl in Hrun; [|done].
    eapply IH; [|done|].
    + intros y t t' Hy. apply Hbody. by right.
    + eapply Hbody; [by left|done|done].
Qed.

Lemma for_each_app {A S : Type} (l1 l2 : list A) (body : A → S → option S) s :
  for_each (l1 ++ l2) body s = s' ← for_each l1 body s; for_each l2 body s'.
Proof.
  revert s. induction l1 as [|x l1 IH]; intros s; simpl; [done|].
  destruct (body x s); simpl; [apply IH|done].
Qed.

(** *** Sums *)

Lemma vsum_cons x v : vsum (x :: v) = x + vsum v.
Proof. done. Qed.

Lemma vsum_zeros n : vsum (zeros n) = 0.
Proof.
  induction n as [|n IH]; [done|].
  change (zeros (S n)) with (0 :: zeros n). rewrite vsum_cons, IH. ring.
Qed.

Lemma vsum_insert (v : Vector) i a b :
  v !! i = Some a → vsum (<[i := b]> v) = vsum v - a + b.
Proof.
  revert i. induction v as [|x v IH]; intros [|i] Hi; simplify_eq/=.
  - rewrite !vsum_cons. ring.
  - rewrite !vsum_cons, (IH i Hi). ring.
Qed.

Lemma sub_at_add_at r c x M : sub_at r c x M = add_at r c (- x) M.
Proof.
  unfold sub_at, add_at, add_to.
  destruct (M !! r) as [row|]; simpl; [|done].
  by destruct (row !! c).
Qed.

Lemma add_at_Some r c x (M M' : Matrix) :
  add_at r c x M = Some M' →
  ∃ row old, M !! r = Some row ∧ row !! c = Some old
             ∧ M' = <[r := <[c := old + x]> row]> M.
Proof.
  unfold add_at, add_to. intros H.
  destruct (M !! r) as [row|] eqn:Hrow; simpl in H; [|done].
  destruct (row !! c) as [old|] eqn:Hold; simpl in H; [|done].
  simplify_eq. by exists row, old.
Qed.

Lemma add_at_is_Some n r c x (M : Matrix) :
  square n M → (r < n)%nat → (c < n)%nat → is_Some (add_at r c x M).
Proof.
  intros [Hlen Hrows] Hr Hc. unfold add_at, add_to.
  destruct (lookup_lt_is_Some_2 M r) as [row Hrow]; [lia|].
  rewrite Hrow. simpl.
  assert (length row = n) as Hrowlen.
  { rewrite Forall_lookup in Hrows. by eapply Hrows. }
  destruct (lookup_lt_is_Some_2 row c) as [old Hold]; [lia|].
  rewrite Hold. simpl. eauto.
Qed.

Lemma add_at_square n r c x (M M' : Matrix) :
  add_at r c x M = Some M' → square n M → square n M'.
Proof.
  intros (row & old & Hrow & Hold & ->)%add_at_Some [Hlen Hrows].
  split; [by rewrite length_insert|].
  apply Forall_insert; [done|].
  rewrite length_insert. rewrite Forall_lookup in Hrows. by eapply Hrows.
Qed.

Lemma colsum_add_at r c x j (M M' : Matrix) :
  add_at r c x M = Some M' → colsum j M' = colsum j M + ind c j * x.
Proof.
  intros (row & old & Hrow & Hold & ->)%add_at_Some.
  unfold colsum, column. rewrite list_fmap_insert.
  erewrite vsum_insert; [|by rewrite list_lookup_fmap, Hrow].
  unfold ind. case_bool_decide as Hcj.
  - subst j. rewrite list_lookup_insert_eq by (by eapply lookup_lt_Some).
    rewrite Hold. simpl. ring.
  - rewrite list_lookup_insert_ne by done. ring.
Qed.

Lemma rowsum_add_at r c x k (M M' : Matrix) :
  add_at r c x M = Some M' → rowsum k M' = rowsum k M + ind r k * x.
Proof.
  intros (row & old & Hrow & Hold & ->)%add_at_Some.
  unfold rowsum, ind. case_bool_decide as Hrk.
  - subst k. rewrite list_lookup_insert_eq by (by eapply lookup_lt_Some).
    rewrite Hrow. simpl. rewrite (vsum_insert _ _ old) by done. ring.
  - rewrite list_lookup_insert_ne by done. ring.
Qed.

Lemma zeros2_square n : square n (zeros2 n n).
Proof.
  unfold square, zeros2, zeros. split; [by rewrite length_replicate|].
  apply Forall_replicate. by rewrite length_replicate.
Qed.

Lemma colsum_zeros2 n m j : colsum j (zeros2 n m) = 0.
Proof.
  unfold colsum, column, zeros2. rewrite fmap_replicate.
  assert (default 0 (zeros m !! j) = 0) as ->.
  { unfold zeros. destruct (replicate m 0 !! j) as [x|] eqn:Hx; [|done].
    by apply lookup_replicate in Hx as [-> _]. }
  apply vsum_zeros.
Qed.


(** *** The scatter of one inner face *)

Lemma scatterCoefficient_Some flux back fwd i (M M' : Matrix) :
  scatterCoefficient flux back fwd i M = Some M' →
  ∃ f M1, flux !! i = Some f
          ∧ add_at back i (minus_one * f) M = Some M1
          ∧ add_at fwd i (- (minus_one * f)) M1 = Some M'.
Proof.
  unfold scatterCoefficient. intros H.
  destruct (flux !! i) as [f|]; simpl in H; [|done].
  destruct (add_at back i (minus_one * f) M) as [M1|] eqn:H1; simpl in H; [|done].
  rewrite sub_at_add_at in H. by exists f, M1.
Qed.

Lemma scatterCoefficient_colsum flux back fwd i j (M M' : Matrix) :
  scatterCoefficient flux back fwd i M = Some M' → colsum j M' = colsum j M.
Proof.
  intros (f & M1 & _ & H1 & H2)%scatterCoefficient_Some.
  rewrite (colsum_add_at _ _ _ _ _ _ H2), (colsum_add_at _ _ _ _ _ _ H1). ring.
Qed.

Lemma scatterCoefficient_square n flux back fwd i (M M' : Matrix) :
  scatterCoefficient flux back fwd i M = Some M' → square n M → square n M'.
Proof.
  intros (f & M1 & _ & H1 & H2)%scatterCoefficient_Some HM.
  eapply add_at_square; [done|]. by eapply add_at_square.
Qed.

Lemma addInnerFace_colsum element permeability innerFace j (M M' : Matrix) :
  addInnerFace element permeability innerFace M = Some M' →
  colsum j M' = colsum j M.
Proof.
  unfold addInnerFace, scatterFlux. intros H.
  destruct (diffusiveFlux permeability innerFace) as [flux|]; simpl in H; [|done].
  destruct (innerFaceNeighbourVertices _ !! _) as [row|]; simpl in H; [|done].
  destruct (row !! 0%nat) as [back|]; simpl in H; [|done].
  destruct (row !! 1%nat) as [fwd|]; simpl in H; [|done].
  eapply (for_each_invariant (λ N, colsum j N = colsum j M)); [|exact H|done].
  intros i N N' _ Hstep <-. by eapply scatterCoefficient_colsum.
Qed.

Lemma addInnerFace_square element permeability innerFace n (M M' : Matrix) :
  addInnerFace element permeability innerFace M = Some M' →
  square n M → square n M'.
Proof.
  unfold addInnerFace, scatterFlux. intros H.
  destruct (diffusiveFlux permeability innerFace) as [flux|]; simpl in H; [|done].
  destruct (innerFaceNeighbourVertices _ !! _) as [row|]; simpl in H; [|done].
  destruct (row !! 0%nat) as [back|]; simpl in H; [|done].
  destruct (row !! 1%nat) as [fwd|]; simpl in H; [|done].
  intros HM. eapply (for_each_invariant (square n)); [|exact H|done].
  intros i N N' _ Hstep. by eapply scatterCoefficient_square.
Qed.

(** C10 (amended).  In exact arithmetic: whatever the global-derivative
    matrices and area vectors of the inner faces are, a matrix returned by
    [computeLocalMatrix] is square of the size of the element and each of
    its columns sums to zero, every coefficient being added to one entry of
    the column and subtracted from another. *)
Theorem computeLocalMatrix_columns_sum_to_zero element permeability b M :
  computeLocalMatrix element permeability b = Some M →
  square (length (vertices element)) M ∧ ∀ j, colsum j M = 0.
Proof.
  unfold computeLocalMatrix. intros H.
  set (n := length (vertices element)) in *.
  eapply (for_each_invariant (λ N, square n N ∧ ∀ j, colsum j N = 0));
    [|exact H|].
  - intros innerFace N N' _ Hface [Hsq Hcol]. split.
    + by eapply addInnerFace_square.
    + intros j. rewrite <- (Hcol j). by eapply addInnerFace_colsum.
  - split; [apply zeros2_square|]. intros j. apply colsum_zeros2.
Qed.

Lemma computeLocalMatrix_columns_witness :
  square 3 unrelated_local_matrix ∧ ∀ j, colsum j unrelated_local_matrix = 0.
Proof.
  apply (computeLocalMatrix_columns_sum_to_zero unrelated_element two true).
  by_evaluation.
Defined.

(** C10 (counterexample).  In binary64, as the source computes, the columns
    do not sum to zero.  On the reference triangle with the conductivity 0.3
    and the face areas (-0.5, 0.2), (-0.4, 0.1), (-0.2, 0.3), column 0 of the
    local matrix is [-0.12, -2^-56, 0.12], which sums to [-2^-56] in any
    order.  With the derivative matrices [[1e16, 0, 0], [0, 0, 0]] and
    [[1, 0, 0], [0, 0, 0]], the area (1, 0, 0) and the conductivity 1, the
    coefficient 1 is absorbed by the entry 1e16 it is added to and kept by
    the entry 0 it is subtracted from: column 0 is [-1e16, 1e16, 1]. *)
Lemma computeLocalMatrix_columns_binary64 :
  (∃ M, Binary64.computeLocalMatrix Binary64.leaking_columns
          Binary64.conductivity false = Some M
        ∧ Binary64.column 0 M = Binary64.leaking_column
        ∧ Binary64.colsum 0 M = PrimFloat.opp Binary64.residue
        ∧ PrimFloat.eqb (Binary64.colsum 0 M) PrimFloat.zero = false)
  ∧ (∃ M, Binary64.computeLocalMatrix Binary64.absorbed_flux
            PrimFloat.one false = Some M
          ∧ Binary64.column 0 M = Binary64.absorbed_column
          ∧ Binary64.colsum 0 M = PrimFloat.one
          ∧ PrimFloat.eqb (Binary64.colsum 0 M) PrimFloat.zero = false).
Proof.
  split; (eexists; split; [vm_compute; reflexivity|]);
    repeat split; vm_compute; reflexivity.
Qed.

(** *** Rows *)

Lemma for_each_total {A S : Type} (P : S → Prop) (Q : A → Prop)
    (l : list A) (body : A → S → option S) :
  (∀ x s, Q x → P s → ∃ s', body x s = Some s' ∧ P s') →
  Forall Q l → ∀ s, P s → ∃ s', for_each l body s = Some s' ∧ P s'.
Proof.
  intros Hbody. induction 1 as [|x l Hx _ IH]; intros s Hs; simpl; [by eauto|].
  destruct (Hbody x s Hx Hs) as (s1 & -> & Hs1). simpl. by apply IH.
Qed.

(** The inner loop, from index [a] on: it succeeds on a square matrix and
    moves the sum of the scattered coefficients into the backward row and
    out of the forward row. *)
Lemma scatterFlux_rows n flux back fwd :
  (back < n)%nat → (fwd < n)%nat →
  ∀ m a (M : Matrix),
    square n M → (a + m ≤ n)%nat → (a + m ≤ length flux)%nat →
    ∃ M', for_each (seq a m) (scatterCoefficient flux back fwd) M = Some M'
          ∧ square n M'
          ∧ ∀ k, rowsum k M'
                 = rowsum k M
                   + (ind back k - ind fwd k)
                     * (minus_one * vsum (take m (drop a flux))).
Proof.
  intros Hback Hfwd. induction m as [|m IH]; intros a M HM Han Haf.
  - exists M. split; [done|]. split; [done|]. intros k. rewrite take_0.
    change (vsum []) with 0. ring.
  - destruct (lookup_lt_is_Some_2 flux a) as [f Hf]; [lia|].
    destruct (add_at_is_Some n back a (minus_one * f) M) as [M1 H1];
      [done|done|lia|].
    pose proof (add_at_square _ _ _ _ _ _ H1 HM) as HM1.
    destruct (add_at_is_Some n fwd a (- (minus_one * f)) M1) as [M2 H2];
      [done|done|lia|].
    pose proof (add_at_square _ _ _ _ _ _ H2 HM1) as HM2.
    destruct (IH (S a) M2 HM2) as (M' & Hrun & HM' & Hsum); [lia|lia|].
    exists M'. split; [|split; [done|]].
    + assert (scatterCoefficient flux back fwd a M = Some M2) as Hstep.
      { unfold scatterCoefficient. rewrite Hf. simpl. rewrite H1. simpl.
        by rewrite sub_at_add_at. }
      change (seq a (S m)) with (a :: seq (S a) m). simpl.
      by rewrite Hstep.
    + intros k. rewrite Hsum.
      rewrite (rowsum_add_at _ _ _ _ _ _ H2), (rowsum_add_at _ _ _ _ _ _ H1).
      rewrite (drop_S _ _ _ Hf). simpl. rewrite vsum_cons. ring.
Qed.

Lemma drop_last_snoc {A : Type} (l : list A) x : drop_last (l ++ [x]) = l.
Proof.
  unfold drop_last. rewrite length_app. simpl.
  replace (length l + 1 - 1)%nat with (length l) by lia.
  by rewrite take_app_length.
Qed.

(** With a two-row derivative matrix the padding row is dropped again. *)
Lemma diffusiveFlux_two_rows permeability innerFace :
  length (globalDerivatives innerFace) = 2%nat →
  diffusiveFlux permeability innerFace
  = product ← matvec (transpose (globalDerivatives innerFace))
                [px (area innerFace); py (area innerFace)];
    Some (vscale permeability product).
Proof.
  intros H. unfold diffusiveFlux.
  rewrite bool_decide_eq_true_2 by done. by rewrite drop_last_snoc.
Qed.

Lemma linalg_inv_shape (M N : Matrix) :
  linalg_inv M = Some N → ∃ a b c d, N = [[a; b]; [c; d]].
Proof.
  destruct M as [|[|a [|b [|? ?]]] [|[|c [|d [|? ?]]] [|? ?]]]; simpl; try done.
  case_bool_decide; [done|]. intros [= <-]. eauto.
Qed.

Lemma Quadrilateral_opposites :
  Quadrilateral.m14 = - Quadrilateral.q14
  ∧ Quadrilateral.m12 = - Quadrilateral.q12
  ∧ Quadrilateral.m34 = - Quadrilateral.q34.
Proof. repeat split; by_evaluation. Qed.



(** Every row of the neighbour table names two local vertices of the
    shape. *)
Lemma innerFaceNeighbourVertices_in_range sh vs loc derivatives :
  _is sh vs = true →
  innerFaceShapeFunctionDerivatives sh !! loc = Some derivatives →
  ∃ back fwd, innerFaceNeighbourVertices sh !! loc = Some [back; fwd]
              ∧ (back < length vs)%nat ∧ (fwd < length vs)%nat.
Proof.
  intros His Hd.
  destruct sh; apply bool_decide_eq_true_1 in His; rewrite His;
    [ destruct loc as [|[|[|?]]] | destruct loc as [|[|[|[|?]]]] ];
    try done; simpl; eexists _, _; (split; [reflexivity|lia]).
Qed.





(** In the reference triangle the Jacobian is the identity matrix: the
    refresh stores the transposed derivative table on each inner face, and in
    exact arithmetic row 0 of the local matrix for the conductivity 0.3 is
    [-0.06, 0.03, 0.03]. *)
Lemma reference_triangle_exact :
  fmap globalDerivatives <$> (innerFaces <$> refreshElement reference_triangle)
  = Some (replicate 3 [[minus_one; 1; 0]; [minus_one; 0; 1]])
  ∧ (λ M : Matrix, M !! 0%nat)
      <$> (element ← refreshElement reference_triangle;
           computeLocalMatrix element (tenths 3) false)
    = Some (Some [Q2Qc (-6 # 100); Q2Qc (3 # 100); Q2Qc (3 # 100)]).
Proof. split; by_evaluation. Qed.


(** ** addToLinearSystem: assignments *)

Lemma for_each_fmap {A B S : Type} (f : A → B) (l : list A)
    (body : B → S → option S) s :
  for_each (f <$> l) body s = for_each l (λ x, body (f x)) s.
Proof.
  revert s. induction l as [|x l IH]; intros s; simpl; [done|].
  destruct (body (f x) s); simpl; [apply IH|done].
Qed.

Lemma for_each_bind {A B S : Type} (f : A → list B) (l : list A)
    (body : B → S → option S) s :
  for_each (l ≫= f) body s = for_each l (λ x, for_each (f x) body) s.
Proof.
  revert s. induction l as [|x l IH]; intros s; [done|].
  change ((x :: l) ≫= f) with (f x ++ (l ≫= f)).
  rewrite for_each_app. simpl.
  destruct (for_each (f x) body s); simpl; [apply IH|done].
Qed.

Lemma for_each_ext {A S : Type} (l : list A) (body body' : A → S → option S) s :
  (∀ x s, body x s = body' x s) → for_each l body s = for_each l body' s.
Proof.
  intros Hext. revert s. induction l as [|x l IH]; intros s; simpl; [done|].
  rewrite Hext. destruct (body' x s); simpl; [apply IH|done].
Qed.

Lemma assign_Some i x (v v' : Vector) :
  assign i x v = Some v' ↔ (i < length v)%nat ∧ v' = <[i := x]> v.
Proof.
  unfold assign. split.
  - intros E. case_guard; by simplify_eq/=.
  - intros [Hlt ->]. by rewrite option_guard_True.
Qed.

(** After a sequence of assignments, an entry holds the value of the last
    assignment made to it, or else what it held before. *)
Lemma apply_writes_lookup ws : ∀ (v v' : Vector),
  apply_writes ws v = Some v' →
  length v' = length v
  ∧ ∀ h, v' !! h = match last_write h ws with
                   | Some x => Some x
                   | None => v !! h
                   end.
Proof.
  unfold apply_writes.
  induction ws as [|w ws IH]; intros v v' H; simpl in H.
  - by simplify_eq.
  - destruct (assign w.1 w.2 v) as [v1|] eqn:Hw; simpl in H; [|done].
    apply assign_Some in Hw as [Hlt ->].
    destruct (IH _ _ H) as [Hlen Hlook]. rewrite length_insert in Hlen.
    split; [done|]. intros h. rewrite Hlook. simpl.
    destruct (last_write h ws); [done|].
    case_bool_decide as Hh.
    + subst h. by rewrite list_lookup_insert_eq.
    + by rewrite list_lookup_insert_ne.
Qed.

Lemma apply_writes_in_range ws : ∀ (v v' : Vector),
  apply_writes ws v = Some v' → Forall (λ w, (w.1 < length v)%nat) ws.
Proof.
  unfold apply_writes.
  induction ws as [|w ws IH]; intros v v' H; simpl in H; [done|].
  destruct (assign w.1 w.2 v) as [v1|] eqn:Hw; simpl in H; [|done].
  apply assign_Some in Hw as [Hlt ->].
  constructor; [done|]. apply IH in H. by rewrite length_insert in H.
Qed.

Lemma apply_writes_total ws (v : Vector) :
  Forall (λ w, (w.1 < length v)%nat) ws → is_Some (apply_writes ws v).
Proof.
  intros Hws.
  destruct (for_each_total (λ u : Vector, length u = length v)
              (λ w : nat * Qc, (w.1 < length v)%nat) ws
              (λ w u, assign w.1 w.2 u)) with (s := v) as (v' & Hv' & _);
    [|done|done|by exists v'].
  intros w u Hw Hu. exists (<[w.1 := w.2]> u).
  split; [apply assign_Some; split; [lia|done]|].
  by rewrite length_insert.
Qed.

(** Applying the same assignments again changes nothing. *)
Lemma apply_writes_idempotent ws (v v' : Vector) :
  apply_writes ws v = Some v' → apply_writes ws v' = Some v'.
Proof.
  intros H. destruct (apply_writes_lookup _ _ _ H) as [Hlen Hlook].
  pose proof (apply_writes_in_range _ _ _ H) as Hrange.
  destruct (apply_writes_total ws v') as [v'' H'']; [by rewrite Hlen|].
  rewrite H''. f_equal.
  destruct (apply_writes_lookup _ _ _ H'') as [_ Hlook'].
  apply list_eq. intros h. rewrite Hlook', Hlook.
  by destruct (last_write h ws).
Qed.

Lemma dirichletBoundaryAdder_writes pd (v : Vector) :
  dirichletBoundaryAdder pd v = apply_writes (dirichletWrites pd) v.
Proof.
  unfold dirichletBoundaryAdder, apply_writes, dirichletWrites.
  rewrite for_each_bind. apply for_each_ext. intros bCondition u.
  by rewrite for_each_fmap.
Qed.

(** C7.  A second application of the Dirichlet pass, with the same boundary
    values, leaves the independent vector as the first application set
    it. *)
Theorem dirichletBoundaryAdder_idempotent pd (independent independent' : Vector) :
  dirichletBoundaryAdder pd independent = Some independent' →
  dirichletBoundaryAdder pd independent' = Some independent'.
Proof. rewrite !dirichletBoundaryAdder_writes. apply apply_writes_idempotent. Qed.

Lemma regionVisits_writes pd g region (v : Vector) ws :
  regionVisits pd g region = Some ws →
  (heatGeneration ← property pd region "InternalHeatGeneration";
   elements ← regionElements g region;
   for_each elements (λ element independent,
     for_each (vertices element) (λ vertex independent,
       assign (handle vertex) (volume vertex * heatGeneration) independent)
     independent) v)
  = apply_writes ws v.
Proof.
  unfold regionVisits, apply_writes. intros H.
  destruct (property pd region "InternalHeatGeneration") as [hg|];
    simpl in *; [|done].
  destruct (regionElements g region) as [elements|]; simpl in *; [|done].
  simplify_eq. rewrite for_each_bind. apply for_each_ext. intros element u.
  by rewrite for_each_fmap.
Qed.

Lemma regionVisits_is_Some pd g region (v v' : Vector) :
  (heatGeneration ← property pd region "InternalHeatGeneration";
   elements ← regionElements g region;
   for_each elements (λ element independent,
     for_each (vertices element) (λ vertex independent,
       assign (handle vertex) (volume vertex * heatGeneration) independent)
     independent) v) = Some v' →
  is_Some (regionVisits pd g region).
Proof.
  unfold regionVisits. intros H.
  destruct (property pd region "InternalHeatGeneration") as [hg|];
    simpl in *; [|done].
  destruct (regionElements g region) as [elements|]; simpl in *; [|done].
  eauto.
Qed.

Lemma internalHeatGeneration_writes pd g (v v' : Vector) :
  internalHeatGeneration pd g v = Some v' →
  ∃ ws, internalHeatGenerationVisits pd g = Some ws
        ∧ apply_writes ws v = Some v'.
Proof.
  unfold internalHeatGeneration, internalHeatGenerationVisits.
  generalize (regions g). intros rs. revert v.
  induction rs as [|region rs IH]; intros v H; simpl in H.
  - simplify_eq. by exists [].
  - match type of H with (?step ≫= _) = _ =>
      destruct step as [v1|] eqn:Hstep end; simpl in H; [|done].
    destruct (regionVisits_is_Some _ _ _ _ _ Hstep) as [ws1 Hws1].
    rewrite (regionVisits_writes _ _ _ _ _ Hws1) in Hstep.
    destruct (IH _ H) as (ws & Hws & Happ).
    destruct (mapM (regionVisits pd g) rs) as [wss|] eqn:Hwss;
      simpl in Hws; [|done].
    simplify_eq. exists (ws1 ++ mjoin wss). split.
    + change (mapM (regionVisits pd g) (region :: rs))
        with (w ← regionVisits pd g region;
              k ← mapM (regionVisits pd g) rs; Some (w :: k)).
      rewrite Hws1. simpl. by rewrite Hwss.
    + unfold apply_writes in *. rewrite for_each_app, Hstep. simpl. exact Happ.
Qed.

(** C6.  The internal-heat-generation pass assigns: after it, the entry of a
    visited vertex is [vertex.volume * heatGeneration] of its last visit in
    region, element and vertex order, whatever the entry held before and
    whatever earlier visits stored; the entries of other vertices are as
    before. *)
Theorem internalHeatGeneration_last_write pd g (independent independent' : Vector) :
  internalHeatGeneration pd g independent = Some independent' →
  ∃ visits, internalHeatGenerationVisits pd g = Some visits
    ∧ ∀ h, independent' !! h = match last_write h visits with
                               | Some x => Some x
                               | None => independent !! h
                               end.
Proof.
  intros (ws & Hws & Happ)%internalHeatGeneration_writes.
  exists ws. split; [done|]. by apply apply_writes_lookup.
Qed.

Lemma dirichletBoundaryAdder_witness :
  dirichletBoundaryAdder example_problem [five; seven; five; five]
  = Some [five; seven; five; five].
Proof.
  apply (dirichletBoundaryAdder_idempotent example_problem (zeros 4)).
  by_evaluation.
Defined.

Lemma internalHeatGeneration_witness :
  ∃ visits, internalHeatGenerationVisits example_problem example_grid
            = Some visits
    ∧ ∀ h, [five * third; two * Triangle.q16; five * third; five * Triangle.q16]
           !! h
           = match last_write h visits with
             | Some x => Some x
             | None => zeros 4 !! h
             end.
Proof.
  apply (internalHeatGeneration_last_write example_problem example_grid).
  by_evaluation.
Defined.

(** ** addToLinearSystem: the frame of the later iterations *)

Lemma assign_length i x (v v' : Vector) :
  assign i x v = Some v' → length v' = length v.
Proof. intros [_ ->]%assign_Some. apply length_insert. Qed.

Lemma add_to_length i x (v v' : Vector) :
  add_to i x v = Some v' → length v' = length v.
Proof.
  unfold add_to. destruct (v !! i); simpl; [|done].
  intros [= <-]. apply length_insert.
Qed.



Lemma neumannBoundaryAdder_length `{Linalg} pd (v v' : Vector) :
  neumannBoundaryAdder pd v = Some v' → length v' = length v.
Proof.
  intros Hrun. unfold neumannBoundaryAdder in Hrun.
  eapply (for_each_invariant (λ u : Vector, length u = length v));
    [|exact Hrun|done].
  clear Hrun. intros bCondition u u' _ Hrun Hu. cbv beta in Hrun.
  eapply (for_each_invariant (λ u : Vector, length u = length v));
    [|exact Hrun|done].
  clear Hrun. intros facet w w' _ Hrun Hw. cbv beta in Hrun.
  eapply (for_each_invariant (λ u : Vector, length u = length v));
    [|exact Hrun|done].
  clear Hrun. intros outerFace y y' _ Hrun Hy. cbv beta in Hrun.
  by rewrite (add_to_length _ _ _ _ Hrun).
Qed.

Lemma internalHeatGeneration_length pd g (v v' : Vector) :
  internalHeatGeneration pd g v = Some v' → length v' = length v.
Proof.
  intros (ws & _ & Happ)%internalHeatGeneration_writes.
  by apply apply_writes_lookup in Happ as [? _].
Qed.




(** ** checkConvergence *)

Lemma foldl_max_spec (l : Vector) : ∀ m,
  let r := foldl (λ m y, if bool_decide (m < y) then y else m) m l in
  (r = m ∨ r ∈ l) ∧ m ≤ r ∧ Forall (λ x, x ≤ r) l.
Proof.
  induction l as [|a l IH]; intros m; simpl.
  - split; [by left|]. split; [apply Qcle_refl|constructor].
  - destruct (IH (if bool_decide (m < a) then a else m)) as (Hin & Hle & Hall).
    simpl in *.
    set (r := foldl _ _ l) in *.
    assert (m ≤ (if bool_decide (m < a) then a else m)
            ∧ a ≤ (if bool_decide (m < a) then a else m)) as [Hm Ha].
    { case_bool_decide as Hlt.
      - split; [by apply Qclt_le_weak|apply Qcle_refl].
      - split; [apply Qcle_refl|by apply Qcnot_lt_le]. }
    split; [|split].
    + destruct Hin as [Hr|Hr]; [|right; by right].
      case_bool_decide; [right; rewrite Hr; by left|by left].
    + by eapply Qcle_trans.
    + constructor; [by eapply Qcle_trans|done].
Qed.

(** Python's [max] returns an element of the list that no element
    exceeds. *)
Lemma py_max_spec (l : Vector) d :
  py_max l = Some d → d ∈ l ∧ Forall (λ x, x ≤ d) l.
Proof.
  destruct l as [|x l]; simpl; [done|]. intros [= <-].
  destruct (foldl_max_spec l x) as (Hin & Hle & Hall). split.
  - destruct Hin as [->|Hin]; [by left|by right].
  - by constructor.
Qed.

(** C5.  With at least one vertex, [checkConvergence] stores in
    [difference] the largest [|temp - oldTemp|] over the vertices, moves the
    numerical temperature into [oldTemperature], and returns true exactly
    when the current time exceeds the final time, or the iteration is past 0
    and the difference is below the tolerance; at iteration 0 only the time
    decides. *)
Theorem checkConvergence_spec self :
  numericalTemperature self ≠ [] →
  oldTemperature self ≠ [] →
  ∃ d flag self',
    checkConvergence self = Some (flag, self')
    ∧ difference self' = d
    ∧ oldTemperature self' = numericalTemperature self
    ∧ self' = set_convergence d (numericalTemperature self) self
    ∧ (∃ i temp oldTemp,
          numericalTemperature self !! i = Some temp
          ∧ oldTemperature self !! i = Some oldTemp
          ∧ d = Qcabs.Qcabs (temp - oldTemp))
    ∧ (∀ i temp oldTemp,
          numericalTemperature self !! i = Some temp →
          oldTemperature self !! i = Some oldTemp →
          Qcabs.Qcabs (temp - oldTemp) ≤ d)
    ∧ (flag = true ↔
         finalTime (problemData self) < currentTime (timer self)
         ∨ ((0 < iteration self)%Z ∧ d < tolerance (problemData self)))
    ∧ (iteration self = 0%Z →
         (flag = true ↔
            finalTime (problemData self) < currentTime (timer self))).
Proof.
  intros Hnum Hold. unfold checkConvergence.
  set (diffs := zip_with _ _ _).
  destruct (py_max diffs) as [d|] eqn:Hd.
  2:{ destruct (numericalTemperature self), (oldTemperature self); done. }
  simpl. eexists d, _, _. split; [reflexivity|].
  apply py_max_spec in Hd as [Hin Hall].
  split; [done|]. split; [done|]. split; [done|]. split; [|split; [|split]].
  - apply list_elem_of_lookup in Hin as [i Hi]. subst diffs.
    rewrite lookup_zip_with in Hi.
    destruct (numericalTemperature self !! i) as [temp|] eqn:Ht;
      simpl in Hi; [|done].
    destruct (oldTemperature self !! i) as [oldTemp|] eqn:Ho;
      simpl in Hi; [|done].
    injection Hi as <-. by exists i, temp, oldTemp.
  - intros i temp oldTemp Ht Ho. rewrite Forall_lookup in Hall.
    apply (Hall i). subst diffs. rewrite lookup_zip_with, Ht. simpl.
    by rewrite Ho.
  - repeat case_bool_decide; split; intros; try done; try tauto;
      by destruct_or?; destruct_and?.
  - intros Hzero. rewrite Hzero.
    repeat case_bool_decide; split; intros; try done; lia.
Qed.

Lemma checkConvergence_witness :
  ∃ d flag self',
    checkConvergence example_later = Some (flag, self')
    ∧ difference self' = d
    ∧ oldTemperature self' = numericalTemperature example_later
    ∧ self' = set_convergence d (numericalTemperature example_later) example_later
    ∧ (∃ i temp oldTemp,
          numericalTemperature example_later !! i = Some temp
          ∧ oldTemperature example_later !! i = Some oldTemp
          ∧ d = Qcabs.Qcabs (temp - oldTemp))
    ∧ (∀ i temp oldTemp,
          numericalTemperature example_later !! i = Some temp →
          oldTemperature example_later !! i = Some oldTemp →
          Qcabs.Qcabs (temp - oldTemp) ≤ d)
    ∧ (flag = true ↔
         finalTime (problemData example_later) < currentTime (timer example_later)
         ∨ ((0 < iteration example_later)%Z
            ∧ d < tolerance (problemData example_later)))
    ∧ (iteration example_later = 0%Z →
         (flag = true ↔
            finalTime (problemData example_later)
            < currentTime (timer example_later))).
Proof.
  apply (checkConvergence_spec example_later); vm_compute; discriminate.
Defined.

(** ** run *)

Lemma addToLinearSystem_Some `{Linalg} self self' :
  addToLinearSystem self = Some self' →
  ∃ m v, self' = set_system m v self.
Proof.
  unfold addToLinearSystem. intros Hrun.
  destruct (internalHeatGeneration _ _ _); simpl in Hrun; [|done].
  destruct (transientTermAdder _ _ _ _ _ _); simpl in Hrun; [|done].
  destruct (neumannBoundaryAdder _ _); simpl in Hrun; [|done].
  destruct (dirichletBoundaryAdder _ _); simpl in Hrun; [|done].
  match type of Hrun with (?m ≫= _) = _ => destruct m end;
    simpl in Hrun; [|done].
  injection Hrun as <-. eauto.
Qed.

(** One pass through the loop body saves one field, adds one to the
    iteration counter and leaves the configuration alone. *)
Lemma run_body_effect `{Linalg} self self' :
  run_body self = Some self' →
  problemData self' = problemData self
  ∧ iteration self' = (iteration self + 1)%Z
  ∧ length (saved (cgnsSaver self')) = S (length (saved (cgnsSaver self)))
  ∧ finalized (cgnsSaver self') = finalized (cgnsSaver self).
Proof.
  unfold run_body. intros Hrun.
  destruct (addToLinearSystem self) as [s1|] eqn:H1; simpl in Hrun; [|done].
  apply addToLinearSystem_Some in H1 as (m & v & ->).
  unfold solveLinearSystem in Hrun.
  destruct (linalg_solve _ _) as [x|]; simpl in Hrun; [|done].
  unfold checkConvergence in Hrun.
  destruct (py_max _) as [d|]; simpl in Hrun; [|done].
  injection Hrun as <-. simpl.
  rewrite length_app. simpl. repeat split; lia.
Qed.

Lemma loop_condition_true self :
  loop_condition self = true →
  converged self = false
  ∧ (iteration self < maxNumberOfIterations (problemData self))%Z.
Proof.
  unfold loop_condition. intros [Hc Hi]%andb_prop.
  split; [by destruct (converged self)|lia].
Qed.

Lemma loop_condition_false self :
  loop_condition self = false →
  converged self = true
  ∨ (maxNumberOfIterations (problemData self) ≤ iteration self)%Z.
Proof.
  unfold loop_condition. intros [Hc|Hi]%andb_false_iff.
  - left. by destruct (converged self).
  - right. lia.
Qed.

(** The loop is left at once when its condition fails. *)
Lemma run_stops `{Linalg} fuel self :
  loop_condition self = false → run fuel self = Returned self.
Proof. intros Hc. destruct fuel; simpl; by rewrite Hc. Qed.

(** With fuel for [maxNumberOfIterations - iteration] passes the loop does
    not run out of fuel.  It makes [k] passes, [k] no more than that number,
    each entered with the object not converged and below the cap, and then
    either leaves the loop, at the first object that is converged or at the
    cap, or raises, in the next pass through the body. *)
Lemma run_trace `{Linalg} fuel : ∀ self,
  (Z.to_nat (maxNumberOfIterations (problemData self) - iteration self) ≤ fuel)%nat →
  ∃ (k : nat) (last : HeatTransfer2D),
    (Z.of_nat k
     ≤ Z.max 0 (maxNumberOfIterations (problemData self) - iteration self))%Z
    ∧ passes k self = Some last
    ∧ problemData last = problemData self
    ∧ iteration last = (iteration self + Z.of_nat k)%Z
    ∧ (∀ j, (j < k)%nat →
         ∃ earlier, passes j self = Some earlier
                    ∧ converged earlier = false
                    ∧ (iteration self + Z.of_nat j
                       < maxNumberOfIterations (problemData self))%Z)
    ∧ ((converged last = true
        ∨ (maxNumberOfIterations (problemData self) ≤ iteration last)%Z)
       ∧ run fuel self = Returned last
       ∨
       converged last = false
       ∧ (iteration last < maxNumberOfIterations (problemData self))%Z
       ∧ run_body last = None
       ∧ run fuel self = Raised).
Proof.
  induction fuel as [|fuel IH]; intros self Hfuel.
  - exists 0%nat, self. rewrite Z.add_0_r.
    assert (loop_condition self = false) as Hc.
    { unfold loop_condition. apply andb_false_iff. right. lia. }
    repeat split; [lia|lia|]. left.
    split; [by apply loop_condition_false|by apply run_stops].
  - destruct (loop_condition self) eqn:Hc.
    + apply loop_condition_true in Hc as Hc'. destruct Hc' as [Hconv Hit].
      simpl. rewrite Hc.
      destruct (run_body self) as [self'|] eqn:Hbody.
      * apply run_body_effect in Hbody as Heff.
        destruct Heff as (Hpd & Hit' & _).
        destruct (IH self') as (k & last & Hk & Hpasses & Hpd' & Hlast & Hearlier & Hend).
        { rewrite Hpd, Hit'. lia. }
        rewrite Hpd, Hit' in *.
        exists (S k), last. split; [lia|].
        split; [simpl; by rewrite Hbody|].
        split; [congruence|]. split; [lia|]. split.
        -- intros [|j] Hj.
           ++ exists self. rewrite Z.add_0_r. done.
           ++ destruct (Hearlier j) as (earlier & He & Hce & Hie); [lia|].
              exists earlier. split; [simpl; by rewrite Hbody|].
              split; [done|lia].
        -- exact Hend.
      * exists 0%nat, self. rewrite Z.add_0_r.
        split; [lia|]. split; [done|]. split; [done|]. split; [done|].
        split; [lia|]. right. done.
    + exists 0%nat, self. rewrite Z.add_0_r.
      split; [lia|]. split; [done|]. split; [done|]. split; [done|].
      split; [lia|]. left.
      split; [by apply loop_condition_false|by apply run_stops].
Qed.

(** C8.  Given fuel for [maxNumberOfIterations] passes, the program does
    not run out of it.  The loop makes [k] passes, [k] no more than
    [maxNumberOfIterations], and every pass is entered with the object not
    converged and below the cap: the loop is left at the first object that is
    converged or at the cap.  In both cases alike the program then returns
    that object finalized; the cap is no error.  The only other end is an
    exception raised inside a pass through the body, entered below the
    cap. *)
Theorem run_at_most_maxNumberOfIterations `{Linalg} fuel pd g self :
  (Z.to_nat (maxNumberOfIterations pd) ≤ fuel)%nat →
  settings pd g = Some self →
  ∃ (k : nat) (last : HeatTransfer2D),
    (Z.of_nat k ≤ Z.max 0 (maxNumberOfIterations pd))%Z
    ∧ passes k self = Some last
    ∧ iteration last = Z.of_nat k
    ∧ (∀ j, (j < k)%nat →
         ∃ earlier, passes j self = Some earlier
                    ∧ converged earlier = false
                    ∧ (Z.of_nat j < maxNumberOfIterations pd)%Z)
    ∧ ((converged last = true ∨ (maxNumberOfIterations pd ≤ Z.of_nat k)%Z)
       ∧ __init__ fuel pd g = Returned (finalize last)
       ∧ finalized (cgnsSaver (finalize last)) = true
       ∨
       converged last = false
       ∧ (Z.of_nat k < maxNumberOfIterations pd)%Z
       ∧ run_body last = None
       ∧ __init__ fuel pd g = Raised).
Proof.
  intros Hfuel Hset. unfold __init__. rewrite Hset.
  assert (problemData self = pd ∧ iteration self = 0%Z) as (Hpd & Hit).
  { unfold settings in Hset.
    destruct (calculateInnerFacesGlobalDerivatives g); simpl in Hset; [|done].
    by injection Hset as <-. }
  destruct (run_trace fuel self)
    as (k & last & Hk & Hpasses & _ & Hlast & Hearlier & Hend).
  { rewrite Hpd, Hit, Z.sub_0_r. done. }
  rewrite Hpd, Hit, ?Z.sub_0_r, ?Z.add_0_l in *.
  exists k, last. split; [done|]. split; [done|]. split; [done|]. split.
  - intros j Hj. destruct (Hearlier j Hj) as (earlier & ? & ? & ?).
    exists earlier. by rewrite Z.add_0_l in *.
  - rewrite Hlast in Hend.
    destruct Hend as [(Hstop & ->)|(Hconv & Hbelow & Hbody & ->)].
    + left. done.
    + right. done.
Qed.

Lemma run_witness :
  ∃ (k : nat) (last : HeatTransfer2D),
    (Z.of_nat k ≤ Z.max 0 (maxNumberOfIterations example_problem))%Z
    ∧ @passes example_linalg k example_initial = Some last
    ∧ iteration last = Z.of_nat k
    ∧ (∀ j, (j < k)%nat →
         ∃ earlier, @passes example_linalg j example_initial = Some earlier
                    ∧ converged earlier = false
                    ∧ (Z.of_nat j < maxNumberOfIterations example_problem)%Z)
    ∧ ((converged last = true
        ∨ (maxNumberOfIterations example_problem ≤ Z.of_nat k)%Z)
       ∧ @__init__ example_linalg 3 example_problem example_grid
         = Returned (finalize last)
       ∧ finalized (cgnsSaver (finalize last)) = true
       ∨
       converged last = false
       ∧ (Z.of_nat k < maxNumberOfIterations example_problem)%Z
       ∧ @run_body example_linalg last = None
       ∧ @__init__ example_linalg 3 example_problem example_grid = Raised).
Proof.
  apply (@run_at_most_maxNumberOfIterations example_linalg).
  - vm_compute. lia.
  - vm_compute. reflexivity.
Defined.

(** The example run reaches the cap of three iterations without having
    converged, and is finalized. *)
Lemma capped_run_finalizes :
  ∃ self, @__init__ example_linalg 3 example_problem example_grid = Returned self
    ∧ converged self = false
    ∧ iteration self = 3%Z
    ∧ length (saved (cgnsSaver self)) = 3%nat
    ∧ finalized (cgnsSaver self) = true.
Proof.
  destruct (@__init__ example_linalg 3 example_problem example_grid)
    as [| |self] eqn:Hrun; [by vm_compute in Hrun..|].
  exists self. split; [done|].
  assert (Returned self
          = @__init__ example_linalg 3 example_problem example_grid) as E by done.
  clear Hrun. vm_compute in E. injection E as ->. by vm_compute.
Qed.

(** With a tolerance of one the same run converges in its second iteration
    and leaves the loop there, below the cap of three, finalized as well. *)
Lemma converged_run_stops_early :
  ∃ self, @__init__ example_linalg 3 tolerant_problem example_grid = Returned self
    ∧ converged self = true
    ∧ iteration self = 2%Z
    ∧ length (saved (cgnsSaver self)) = 2%nat
    ∧ finalized (cgnsSaver self) = true.
Proof.
  destruct (@__init__ example_linalg 3 tolerant_problem example_grid)
    as [| |self] eqn:Hrun; [by vm_compute in Hrun..|].
  exists self. split; [done|].
  assert (Returned self
          = @__init__ example_linalg 3 tolerant_problem example_grid) as E by done.
  clear Hrun. vm_compute in E. injection E as ->. by vm_compute.
Qed.

(** * Further properties *)

(** ** InnerFace.py: evalCentroid *)

Lemma foldl_coords_length (l : list (Vertex * Qc)) : ∀ coords : Vector,
  length coords = 3%nat →
  length (foldl (λ coords vw, vadd coords
                   (vscale vw.2 (getCoordinates (coordinates vw.1))))
            coords l) = 3%nat.
Proof.
  induction l as [|vw l IH]; intros coords Hlen; simpl; [done|].
  apply IH. unfold vadd. rewrite length_zip_with. simpl. lia.
Qed.

Lemma Point_of_is_Some (coords : Vector) :
  length coords = 3%nat → is_Some (Point_of coords).
Proof. destruct coords as [|a [|b [|c [|? ?]]]]; done. Qed.

(** X3.  [evalCentroid] raises exactly when the local index of the face is
    outside the shape's table; the number of vertices of the element plays no
    part, [zip] cutting the weights to the vertices there are. *)
Theorem evalCentroid_is_Some element innerFace :
  is_Some (InnerFace.evalCentroid element innerFace)
  ↔ (local innerFace < numberOfInnerFaces (shape element))%nat.
Proof.
  unfold InnerFace.evalCentroid.
  assert (length (innerFaceShapeFunctionValues (shape element))
          = numberOfInnerFaces (shape element)) as <- by by destruct (shape element).
  rewrite <- lookup_lt_is_Some.
  destruct (innerFaceShapeFunctionValues _ !! _) as [ws|].
  - split; [by eauto|]. intros _.
    destruct (Point_of_is_Some
                (foldl (λ coords vw, vadd coords
                          (vscale vw.2 (getCoordinates (coordinates vw.1))))
                   [0; 0; 0] (zip (vertices element) ws))) as [c Hc].
    { by apply foldl_coords_length. }
    change (is_Some
              (c ← Point_of
                     (foldl (λ coords vw, vadd coords
                               (vscale vw.2 (getCoordinates (coordinates vw.1))))
                        [0; 0; 0] (zip (vertices element) ws));
               Some (set_centroid c innerFace))).
    rewrite Hc. simpl. eauto.
  - split; by intros [? ?].
Qed.

(** ** InnerFace.py: calculateGlobalDerivatives *)

Lemma calculateGlobalDerivatives_Some element innerFace innerFace' :
  InnerFace.calculateGlobalDerivatives element innerFace = Some innerFace' →
  ∃ derivatives J inverse G,
    innerFaceShapeFunctionDerivatives (shape element) !! local innerFace
    = Some derivatives
    ∧ getTransposedJacobian element derivatives = Some J
    ∧ linalg_inv J = Some inverse
    ∧ matmul inverse (transpose derivatives) = Some G
    ∧ innerFace' = set_globalDerivatives G innerFace.
Proof.
  unfold InnerFace.calculateGlobalDerivatives. intros H.
  destruct (innerFaceShapeFunctionDerivatives _ !! _) as [derivatives|] eqn:Hd;
    simpl in H; [|done].
  destruct (getTransposedJacobian element derivatives) as [J|] eqn:HJ;
    simpl in H; [|done].
  destruct (linalg_inv J) as [inverse|] eqn:Hinv; simpl in H; [|done].
  destruct (matmul _ _) as [G|] eqn:HG; simpl in H; [|done].
  simplify_eq. by exists derivatives, J, inverse, G.
Qed.

(** Any 2 x 2 matrix times a transposed derivative table has two rows, one
    entry per vertex, each summing to zero. *)
Lemma table_product_rows sh vs loc derivatives a b c d G :
  _is sh vs = true →
  innerFaceShapeFunctionDerivatives sh !! loc = Some derivatives →
  matmul [[a; b]; [c; d]] (transpose derivatives) = Some G →
  ∃ g0 g1, G = [g0; g1]
           ∧ length g0 = length vs ∧ length g1 = length vs
           ∧ vsum g0 = 0 ∧ vsum g1 = 0.
Proof.
  destruct Quadrilateral_opposites as (E14 & E12 & E34).
  intros His Hd HG.
  destruct sh; apply bool_decide_eq_true_1 in His; rewrite His;
    [ destruct loc as [|[|[|?]]] | destruct loc as [|[|[|[|?]]]] ];
    try done; injection Hd as <-; cbn in HG; injection HG as <-;
    eexists _, _; (split; [reflexivity|]); (split; [done|]); (split; [done|]);
    unfold dot, vsum; cbn; rewrite ?minus_one_opp, ?E14, ?E12, ?E34;
    split; ring.
Qed.

(** X4.  The global derivatives that the constructor computes form a
    (spatial dimension) x (number of vertices) array. *)
Theorem calculateGlobalDerivatives_shape element innerFace innerFace' :
  _is (shape element) (vertices element) = true →
  InnerFace.calculateGlobalDerivatives element innerFace = Some innerFace' →
  length (globalDerivatives innerFace') = dimension (shape element)
  ∧ Forall (λ row, length row = length (vertices element))
      (globalDerivatives innerFace').
Proof.
  intros His
    (D & J & inverse & G & HD & HJ & Hinv & HG & ->)%calculateGlobalDerivatives_Some.
  apply linalg_inv_shape in Hinv as (a & b & c & d & ->).
  destruct (table_product_rows _ _ _ _ _ _ _ _ _ His HD HG)
    as (g0 & g1 & -> & H0 & H1 & _). simpl.
  split; [by destruct (shape element)|]. by repeat constructor.
Qed.

Lemma calculateGlobalDerivatives_shape_witness :
  ∃ innerFace',
    InnerFace.calculateGlobalDerivatives skew_triangle (bare_face 0 (Point2 1 two))
    = Some innerFace'
    ∧ length (globalDerivatives innerFace') = dimension (shape skew_triangle)
    ∧ Forall (λ row, length row = length (vertices skew_triangle))
        (globalDerivatives innerFace').
Proof.
  exists (set_globalDerivatives [[minus_one; 1; 0]; [0; minus_one; 1]]
            (bare_face 0 (Point2 1 two))).
  assert (InnerFace.calculateGlobalDerivatives skew_triangle
            (bare_face 0 (Point2 1 two))
          = Some (set_globalDerivatives [[minus_one; 1; 0]; [0; minus_one; 1]]
                    (bare_face 0 (Point2 1 two)))) as E by by_evaluation.
  split; [exact E|].
  by apply (calculateGlobalDerivatives_shape skew_triangle
              (bare_face 0 (Point2 1 two))).
Defined.

(** ** InnerFace.py: getVoigtGradientOperator *)

(** X7.  [getVoigtGradientOperator] raises unless the global derivatives
    have exactly two rows. *)
Theorem getVoigtGradientOperator_is_Some innerFace :
  is_Some (getVoigtGradientOperator innerFace)
  ↔ length (globalDerivatives innerFace) = 2%nat.
Proof.
  unfold getVoigtGradientOperator.
  destruct (globalDerivatives innerFace) as [|Nx [|Ny [|? ?]]]; simpl;
    split; try done; by intros [? ?].
Qed.

(** X8.  On a face built by [calculateGlobalDerivatives] the Voigt operator
    is defined and has three rows of two blocks of one entry per vertex. *)
Theorem getVoigtGradientOperator_shape element innerFace innerFace' :
  _is (shape element) (vertices element) = true →
  InnerFace.calculateGlobalDerivatives element innerFace = Some innerFace' →
  ∃ B, getVoigtGradientOperator innerFace' = Some B
       ∧ length B = 3%nat
       ∧ Forall (λ row, length row = 2%nat
                        ∧ Forall (λ block, length block
                                           = length (vertices element)) row) B.
Proof.
  intros His
    (D & J & inverse & G & HD & HJ & Hinv & HG & ->)%calculateGlobalDerivatives_Some.
  apply linalg_inv_shape in Hinv as (a & b & c & d & ->).
  destruct (table_product_rows _ _ _ _ _ _ _ _ _ His HD HG)
    as (g0 & g1 & -> & H0 & H1 & S0 & S1).
  eexists. split; [reflexivity|]. split; [done|].
  unfold zeros. repeat constructor; rewrite ?length_replicate; done.
Qed.

Lemma getVoigtGradientOperator_witness :
  ∃ B, getVoigtGradientOperator
         (set_globalDerivatives [[minus_one; 1; 0]; [0; minus_one; 1]]
            (bare_face 0 (Point2 1 two))) = Some B
       ∧ length B = 3%nat
       ∧ Forall (λ row, length row = 2%nat
                        ∧ Forall (λ block, length block
                                           = length (vertices skew_triangle)) row) B.
Proof.
  apply (getVoigtGradientOperator_shape skew_triangle
           (bare_face 0 (Point2 1 two))).
  - reflexivity.
  - by_evaluation.
Defined.

(** ** computeLocalMatrix: entries and totality *)

Lemma entry_add_at r0 c0 x r i (M M' : Matrix) :
  add_at r0 c0 x M = Some M' →
  entry r i M' = entry r i M + ind r0 r * ind c0 i * x.
Proof.
  intros (row & old & Hrow & Hold & ->)%add_at_Some.
  unfold entry, ind. case_bool_decide as Hr.
  - subst r. rewrite list_lookup_insert_eq by (by eapply lookup_lt_Some).
    rewrite Hrow. simpl. case_bool_decide as Hc.
    + subst i. rewrite list_lookup_insert_eq by (by eapply lookup_lt_Some).
      rewrite Hold. simpl. ring.
    + rewrite list_lookup_insert_ne by done. ring.
  - rewrite list_lookup_insert_ne by done. ring.
Qed.

Lemma scatterFlux_entries flux back fwd r i : ∀ m a (M M' : Matrix),
  for_each (seq a m) (scatterCoefficient flux back fwd) M = Some M' →
  entry r i M'
  = entry r i M
    + (if bool_decide (a ≤ i < a + m)%nat
       then (ind fwd r - ind back r) * default 0 (flux !! i) else 0).
Proof.
  induction m as [|m IH]; intros a M M' Hrun.
  - simpl in Hrun. injection Hrun as <-.
    rewrite bool_decide_eq_false_2 by lia. ring.
  - change (seq a (S m)) with (a :: seq (S a) m) in Hrun. simpl in Hrun.
    destruct (scatterCoefficient flux back fwd a M) as [M2|] eqn:Hstep;
      simpl in Hrun; [|done].
    apply scatterCoefficient_Some in Hstep as (f & M1 & Hf & H1 & H2).
    rewrite (IH _ _ _ Hrun), (entry_add_at _ _ _ _ _ _ _ H2),
      (entry_add_at _ _ _ _ _ _ _ H1).
    rewrite minus_one_opp. unfold ind at 2 4.
    destruct (decide (a = i)) as [->|Hne].
    + rewrite Hf. simpl.
      rewrite (bool_decide_eq_true_2 (i = i)) by done.
      rewrite (bool_decide_eq_false_2 (S i ≤ i < S i + m)%nat) by lia.
      rewrite (bool_decide_eq_true_2 (i ≤ i < i + S m)%nat) by lia. ring.
    + rewrite (bool_decide_eq_false_2 (a = i)) by done.
      destruct (decide (S a ≤ i < S a + m)%nat).
      * rewrite (bool_decide_eq_true_2 (S a ≤ i < S a + m)%nat) by done.
        rewrite (bool_decide_eq_true_2 (a ≤ i < a + S m)%nat) by lia. ring.
      * rewrite (bool_decide_eq_false_2 (S a ≤ i < S a + m)%nat) by done.
        rewrite (bool_decide_eq_false_2 (a ≤ i < a + S m)%nat) by lia. ring.
Qed.

Lemma addInnerFace_entries element permeability innerFace r i (M M' : Matrix) :
  addInnerFace element permeability innerFace M = Some M' →
  (i < length (vertices element))%nat →
  entry r i M'
  = entry r i M + faceContribution (shape element) permeability innerFace r i.
Proof.
  unfold addInnerFace, scatterFlux, faceContribution. intros H Hi.
  destruct (diffusiveFlux permeability innerFace) as [flux|]; simpl in H; [|done].
  destruct (innerFaceNeighbourVertices _ !! _) as [row|]; simpl in H; [|done].
  destruct (row !! 0%nat) as [back|]; simpl in H; [|done].
  destruct (row !! 1%nat) as [fwd|]; simpl in H; [|done].
  rewrite (scatterFlux_entries _ _ _ _ _ _ _ _ _ H).
  by rewrite bool_decide_eq_true_2 by lia.
Qed.

Lemma entry_zeros2 n m r i : entry r i (zeros2 n m) = 0.
Proof.
  unfold entry, zeros2, zeros.
  destruct (replicate n (replicate m 0) !! r) as [row|] eqn:Hrow; [|done].
  apply lookup_replicate in Hrow as [-> _]. simpl.
  destruct (replicate m 0 !! i) as [x|] eqn:Hx; [|done].
  by apply lookup_replicate in Hx as [-> _].
Qed.

(** X9.  Every entry of a local matrix that [computeLocalMatrix] returns is
    the sum over the inner faces of the face's flux in that column, with
    sign plus in the row of the face's forward vertex and minus in the row
    of its backward vertex. *)
Theorem computeLocalMatrix_entry element permeability b M r i :
  computeLocalMatrix element permeability b = Some M →
  (i < length (vertices element))%nat →
  entry r i M
  = vsum ((λ innerFace,
             faceContribution (shape element) permeability innerFace r i)
            <$> innerFaces element).
Proof.
  unfold computeLocalMatrix. intros H Hi.
  assert (∀ faces (N : Matrix),
            for_each faces (addInnerFace element permeability) N = Some M →
            entry r i M
            = entry r i N
              + vsum ((λ innerFace,
                         faceContribution (shape element) permeability
                           innerFace r i) <$> faces)) as Hloop.
  { induction faces as [|f faces IH]; intros N HN; simpl in HN.
    - injection HN as <-. rewrite fmap_nil. change (vsum []) with 0. ring.
    - destruct (addInnerFace element permeability f N) as [N1|] eqn:Hf;
        simpl in HN; [|done].
      rewrite (IH _ HN), (addInnerFace_entries _ _ _ _ _ _ _ Hf Hi).
      rewrite fmap_cons, vsum_cons. ring. }
  rewrite (Hloop _ _ H), entry_zeros2. ring.
Qed.

Lemma computeLocalMatrix_entry_witness :
  entry 0 1 unrelated_local_matrix
  = vsum ((λ innerFace, faceContribution (shape unrelated_element) two
                          innerFace 0 1)
            <$> innerFaces unrelated_element).
Proof.
  apply (computeLocalMatrix_entry unrelated_element two true).
  - by_evaluation.
  - vm_compute. lia.
Defined.

Lemma zip_rows_length (g0 g1 : Vector) :
  length (zip_with cons g0 ((λ x, [x]) <$> g1)) = min (length g0) (length g1)
  ∧ Forall (λ row : Vector, length row = 2%nat)
      (zip_with cons g0 ((λ x, [x]) <$> g1)).
Proof.
  split; [by rewrite length_zip_with, length_fmap|].
  revert g1. induction g0 as [|x g0 IH]; intros [|y g1]; simpl;
    try constructor; [done|apply IH].
Qed.

Lemma diffusiveFlux_wellShaped sh n permeability innerFace :
  wellShapedFace sh n innerFace →
  ∃ flux, diffusiveFlux permeability innerFace = Some flux ∧ length flux = n.
Proof.
  intros (_ & Hlen & Hrows). rewrite diffusiveFlux_two_rows by done.
  destruct (globalDerivatives innerFace) as [|g0 [|g1 [|? ?]]]; try done.
  apply Forall_cons in Hrows as [H0 Hrows].
  apply Forall_cons in Hrows as [H1 _].
  change (transpose [g0; g1]) with (zip_with cons g0 ((λ x, [x]) <$> g1)).
  destruct (zip_rows_length g0 g1) as [Hl Hr].
  unfold matvec. rewrite option_guard_True by done. simpl.
  eexists. split; [reflexivity|].
  unfold vscale. rewrite !length_fmap, Hl. lia.
Qed.

(** X11.  On an element whose vertex count fits its shape and whose inner
    faces carry 2 x n derivative matrices and local indices within the
    shape's tables, [computeLocalMatrix] does not raise, whatever the values
    of the derivatives and of the area vectors. *)
Theorem computeLocalMatrix_total element permeability b :
  _is (shape element) (vertices element) = true →
  Forall (wellShapedFace (shape element) (length (vertices element)))
    (innerFaces element) →
  is_Some (computeLocalMatrix element permeability b).
Proof.
  intros His Hfaces. unfold computeLocalMatrix.
  set (n := length (vertices element)) in *.
  destruct (for_each_total (square n) (wellShapedFace (shape element) n)
              (innerFaces element) (addInnerFace element permeability))
    with (s := zeros2 n n) as (M & HM & _);
    [|done|apply zeros2_square|by exists M].
  intros f N Hf HN.
  destruct (diffusiveFlux_wellShaped _ _ permeability _ Hf) as (flux & Hflux & Hlen).
  destruct Hf as (Hloc & _).
  assert (is_Some (innerFaceShapeFunctionDerivatives (shape element) !! local f))
    as [D HD].
  { apply lookup_lt_is_Some_2. by destruct (shape element). }
  destruct (innerFaceNeighbourVertices_in_range _ _ _ _ His HD)
    as (back & fwd & Hrow & Hback & Hfwd).
  destruct (scatterFlux_rows n flux back fwd Hback Hfwd n 0%nat N HN)
    as (N' & Hrun & HN' & _); [lia|lia|].
  exists N'. split; [|done].
  unfold addInnerFace. rewrite Hflux. simpl. rewrite Hrow. simpl. exact Hrun.
Qed.

Lemma computeLocalMatrix_total_witness :
  is_Some (computeLocalMatrix skew_triangle_refreshed two true).
Proof.
  apply computeLocalMatrix_total.
  - reflexivity.
  - repeat constructor.
Defined.

(** ** addToLinearSystem: Dirichlet boundaries *)

Lemma dirichletRows_steps pd n (M : Matrix) :
  dirichletRows pd n M
  = for_each (dirichletHandles pd) (λ h M,
      guard (h < length M)%nat;; guard (h < n)%nat;;
      Some (<[h := unit_row n h]> M)) M.
Proof.
  unfold dirichletRows, dirichletHandles.
  rewrite for_each_bind. apply for_each_ext. intros bCondition N.
  rewrite for_each_fmap. apply for_each_ext. intros vertex N'.
  by rewrite list_insert_insert_eq.
Qed.

(** The rows of the Dirichlet vertices become rows of the identity; the
    other rows stay. *)
Lemma dirichletRows_spec pd n (M M' : Matrix) :
  dirichletRows pd n M = Some M' →
  length M' = length M
  ∧ ∀ h, M' !! h = if bool_decide (h ∈ dirichletHandles pd)
                   then Some (unit_row n h) else M !! h.
Proof.
  rewrite dirichletRows_steps. generalize (dirichletHandles pd).
  intros hs. revert M. induction hs as [|k hs IH]; intros M H; simpl in H.
  - injection H as <-. split; [done|]. intros h.
    rewrite bool_decide_eq_false_2; [done|]. apply not_elem_of_nil.
  - repeat case_guard; simpl in H; try done.
    destruct (IH _ H) as [Hlen Hlook]. rewrite length_insert in Hlen.
    split; [done|]. intros h. rewrite Hlook.
    destruct (decide (h ∈ hs)) as [Hin|Hnin].
    + rewrite !bool_decide_eq_true_2; [done| |done]. by right.
    + rewrite (bool_decide_eq_false_2 (h ∈ hs)) by done.
      destruct (decide (h = k)) as [->|Hne].
      * rewrite bool_decide_eq_true_2 by by left.
        by rewrite list_lookup_insert_eq.
      * rewrite bool_decide_eq_false_2.
        -- by rewrite list_lookup_insert_ne.
        -- intros [?|?]%elem_of_cons; done.
Qed.

Lemma addToLinearSystem_passes `{Linalg} self self' :
  addToLinearSystem self = Some self' →
  ∃ v1 s2 v3,
    neumannBoundaryAdder (problemData self) s2.2 = Some v3
    ∧ transientTermAdder (problemData self) (grid self) (timer self)
        (iteration self) (oldTemperature self)
        (matrix self, v1) = Some s2
    ∧ internalHeatGeneration (problemData self) (grid self)
        (zeros (length (grid_vertices (grid self)))) = Some v1
    ∧ dirichletBoundaryAdder (problemData self) v3 = Some (independent self')
    ∧ (if (iteration self =? 0)%Z
       then dirichletRows (problemData self)
              (length (grid_vertices (grid self))) s2.1
       else Some s2.1) = Some (matrix self').
Proof.
  unfold addToLinearSystem. intros Hrun.
  destruct (internalHeatGeneration _ _ _) as [v1|] eqn:H1; simpl in Hrun; [|done].
  destruct (transientTermAdder _ _ _ _ _ _) as [s2|] eqn:H2; simpl in Hrun; [|done].
  destruct (neumannBoundaryAdder _ _) as [v3|] eqn:H3; simpl in Hrun; [|done].
  destruct (dirichletBoundaryAdder _ _) as [v4|] eqn:H4; simpl in Hrun; [|done].
  match type of Hrun with (?m ≫= _) = _ => destruct m as [m5|] eqn:H5 end;
    simpl in Hrun; [|done].
  injection Hrun as <-. simpl. by exists v1, s2, v3.
Qed.

(** X12.  After the first assembly (iteration 0) the matrix row of every
    Dirichlet vertex is the row of the identity matrix. *)
Theorem addToLinearSystem_dirichlet_rows `{Linalg} self self' h :
  iteration self = 0%Z →
  addToLinearSystem self = Some self' →
  h ∈ dirichletHandles (problemData self) →
  matrix self' !! h = Some (unit_row (length (grid_vertices (grid self))) h).
Proof.
  intros Hit (v1 & s2 & v3 & _ & _ & _ & _ & Hrows)%addToLinearSystem_passes Hh.
  rewrite Hit in Hrows. simpl in Hrows.
  apply dirichletRows_spec in Hrows as [_ Hlook].
  by rewrite Hlook, bool_decide_eq_true_2.
Qed.

Lemma addToLinearSystem_dirichlet_rows_witness :
  matrix example_later !! 2%nat
  = Some (unit_row (length (grid_vertices (grid example_initial))) 2).
Proof.
  assert (matrix (default blank (@addToLinearSystem example_linalg example_initial))
          = matrix example_later) as <- by by_evaluation.
  apply (@addToLinearSystem_dirichlet_rows example_linalg example_initial).
  - reflexivity.
  - vm_compute. reflexivity.
  - by_evaluation.
Defined.

(** X13.  After every assembly the entry of the independent vector of a
    Dirichlet vertex is the value prescribed by the last boundary condition
    that lists the vertex: source, transient and Neumann terms of that vertex
    are discarded. *)
Theorem addToLinearSystem_dirichlet_values `{Linalg} self self' h value :
  addToLinearSystem self = Some self' →
  last_write h (dirichletWrites (problemData self)) = Some value →
  independent self' !! h = Some value.
Proof.
  intros (v1 & s2 & v3 & _ & _ & _ & Hd & _)%addToLinearSystem_passes Hlast.
  rewrite dirichletBoundaryAdder_writes in Hd.
  apply apply_writes_lookup in Hd as [_ Hlook]. by rewrite Hlook, Hlast.
Qed.

Lemma addToLinearSystem_dirichlet_values_witness :
  independent example_assembled !! 1%nat = Some seven.
Proof.
  apply (@addToLinearSystem_dirichlet_values example_linalg example_later).
  - vm_compute. reflexivity.
  - by_evaluation.
Defined.

Lemma dot_zeros n (x : Vector) : dot (zeros n) x = 0.
Proof.
  unfold dot. revert x. induction n as [|n IH]; intros [|a x]; try done.
  change (zeros (S n)) with (0 :: zeros n). simpl.
  rewrite vsum_cons, IH. ring.
Qed.

Lemma dot_unit_row n h (x : Vector) :
  (h < n)%nat → dot (unit_row n h) x = default 0 (x !! h).
Proof.
  unfold unit_row. revert h x. induction n as [|n IH]; intros h x Hh; [lia|].
  change (zeros (S n)) with (0 :: zeros n).
  destruct h as [|h], x as [|a x]; simpl; try done.
  - unfold dot. simpl. rewrite vsum_cons. fold (dot (zeros n) x).
    rewrite dot_zeros. ring.
  - unfold dot. simpl. rewrite vsum_cons.
    fold (dot (<[h := 1]> (zeros n)) x). rewrite IH by lia. ring.
Qed.

Lemma last_write_elem_of h ws x :
  last_write h ws = Some x → h ∈ ws.*1.
Proof.
  induction ws as [|w ws IH]; simpl; [done|].
  destruct (last_write h ws).
  - intros E. right. by apply IH.
  - case_bool_decide; [|done]. intros _. subst h. by left.
Qed.

Lemma dirichletHandles_writes pd : dirichletHandles pd = (dirichletWrites pd).*1.
Proof.
  unfold dirichletHandles, dirichletWrites.
  induction (dirichletBoundaries pd) as [|bc bcs IH]; [done|].
  change ((bc :: bcs) ≫= ?f) with (f bc ++ (bcs ≫= f)).
  rewrite fmap_app, <- IH. f_equal.
  rewrite <- list_fmap_compose. by apply list_fmap_ext.
Qed.

(** X14.  Whatever solves the system assembled at iteration 0 takes the
    prescribed value at every Dirichlet vertex. *)
Theorem assembled_system_fixes_dirichlet_values `{Linalg} self self' x h value :
  iteration self = 0%Z →
  addToLinearSystem self = Some self' →
  matvec (matrix self') x = Some (independent self') →
  last_write h (dirichletWrites (problemData self)) = Some value →
  x !! h = Some value.
Proof.
  intros Hit Hasm Hsolve Hlast.
  pose proof Hasm as Hpasses.
  apply addToLinearSystem_passes
    in Hpasses as (v1 & s2 & v3 & _ & _ & _ & Hd & Hrows).
  rewrite Hit in Hrows. simpl in Hrows.
  rewrite dirichletRows_steps in Hrows.
  assert (h ∈ dirichletHandles (problemData self)) as Hh.
  { rewrite dirichletHandles_writes. by eapply last_write_elem_of. }
  assert (h < length (grid_vertices (grid self)))%nat as Hlt.
  { clear Hd Hasm Hsolve. revert Hrows Hh.
    generalize (dirichletHandles (problemData self)), (s2.1).
    intros hs. induction hs as [|k hs IH]; intros M Hrows Hin; simpl in Hrows.
    - by apply elem_of_nil in Hin.
    - repeat case_guard; simpl in Hrows; try done.
      apply elem_of_cons in Hin as [->|Hin]; [done|]. by eapply IH. }
  rewrite <- dirichletRows_steps in Hrows.
  apply dirichletRows_spec in Hrows as [_ Hrow]. specialize (Hrow h).
  rewrite bool_decide_eq_true_2 in Hrow by done.
  rewrite dirichletBoundaryAdder_writes in Hd.
  apply apply_writes_lookup in Hd as [_ Hb]. specialize (Hb h).
  rewrite Hlast in Hb.
  unfold matvec in Hsolve. case_guard as Hshape; simpl in Hsolve; [|done].
  injection Hsolve as Hsolve.
  assert ((λ row, dot row x) <$> matrix self' !! h = Some value) as Hdot.
  { by rewrite <- list_lookup_fmap, Hsolve. }
  rewrite Hrow in Hdot. simpl in Hdot. injection Hdot as Hdot.
  rewrite dot_unit_row in Hdot by done.
  rewrite Forall_lookup in Hshape. specialize (Hshape _ _ Hrow).
  unfold unit_row, zeros in Hshape.
  rewrite length_insert, length_replicate in Hshape.
  destruct (lookup_lt_is_Some_2 x h) as [y Hy]; [lia|].
  rewrite Hy in Hdot. simpl in Hdot. by subst y.
Qed.

Lemma assembled_system_witness :
  [five; seven; five; five] !! 1%nat = Some seven.
Proof.
  apply (@assembled_system_fixes_dirichlet_values example_linalg
           example_initial
           (default blank (@addToLinearSystem example_linalg example_initial))).
  - reflexivity.
  - vm_compute. reflexivity.
  - by_evaluation.
  - by_evaluation.
Defined.

(** ** addToLinearSystem: Neumann boundaries *)





(** ** addToLinearSystem: what makes it raise *)

Lemma for_each_fails {A S : Type} (P : S → Prop) (l : list A)
    (body : A → S → option S) x :
  x ∈ l →
  (∀ y s s', body y s = Some s' → P s → P s') →
  (∀ s, P s → body x s = None) →
  ∀ s, P s → for_each l body s = None.
Proof.
  intros Hx Hinv Hfail. induction l as [|y l IH]; intros s Hs.
  - by apply elem_of_nil in Hx.
  - simpl. apply elem_of_cons in Hx as [<-|Hx].
    + by rewrite Hfail.
    + destruct (body y s) as [s1|] eqn:Hy; simpl; [|done].
      apply IH; [done|]. by eapply Hinv.
Qed.

(** X16.  A region without one of the four properties that the assembly
    reads (or whose handle has no property table) makes [addToLinearSystem]
    raise. *)
Theorem addToLinearSystem_missing_property `{Linalg} self region key :
  region ∈ regions (grid self) →
  key ∈ propertyKeys →
  property (problemData self) region key = None →
  addToLinearSystem self = None.
Proof.
  intros Hregion Hkey Hnone. unfold addToLinearSystem.
  assert (key = "InternalHeatGeneration"
          ∨ (∀ sys, transientTermAdder (problemData self) (grid self)
                      (timer self) (iteration self) (oldTemperature self) sys
                    = None)) as [->|Htrans].
  { unfold propertyKeys in Hkey.
    apply elem_of_cons in Hkey as [->|Hkey]; [by left|]. right.
    intros sys. unfold transientTermAdder.
    apply (for_each_fails (λ _, True) _ _ region); [done|done| |done].
    intros s _.
    repeat (apply elem_of_cons in Hkey as [->|Hkey]); try by apply elem_of_nil in Hkey.
    - by rewrite Hnone.
    - destruct (property _ region "Density"); simpl; [|done]. by rewrite Hnone.
    - destruct (property _ region "Density"); simpl; [|done].
      destruct (property _ region "HeatCapacity"); simpl; [|done].
      by rewrite Hnone. }
  - unfold internalHeatGeneration.
    rewrite (for_each_fails (λ _, True) _ _ region); [done|done|done| |done].
    intros s _. by rewrite Hnone.
  - destruct (internalHeatGeneration _ _ _); simpl; [|done]. by rewrite Htrans.
Qed.

Lemma addToLinearSystem_missing_property_witness :
  @addToLinearSystem example_linalg (with_problem incomplete_problem example_initial)
  = None.
Proof.
  apply (@addToLinearSystem_missing_property example_linalg
           (with_problem incomplete_problem example_initial)
           (mkRegion 1 [1%nat]) "Conductivity").
  - vm_compute. right. left.
  - unfold propertyKeys. do 3 right. left.
  - reflexivity.
Defined.

Lemma scatterVertex_length it oldT element acc lmf lv
    (system system' : Matrix * Vector) :
  scatterVertex it oldT element acc lmf lv system = Some system' →
  length system'.2 = length system.2.
Proof.
  unfold scatterVertex. intros H.
  destruct (subelementVolumes element !! lv.1); simpl in H; [|done].
  destruct (oldT !! handle lv.2); simpl in H; [|done].
  destruct (add_to _ _ _) as [v|] eqn:Hv; simpl in H; [|done].
  apply add_to_length in Hv.
  destruct (it =? 0)%Z.
  - destruct (add_at _ _ _ _); simpl in H; [|done].
    destruct (for_each _ _ _); simpl in H; [|done]. by simplify_eq.
  - by simplify_eq.
Qed.

Lemma transientTermAdder_length pd g t it oldT (system system' : Matrix * Vector) :
  transientTermAdder pd g t it oldT system = Some system' →
  length system'.2 = length system.2.
Proof.
  intros H. unfold transientTermAdder in H.
  eapply (for_each_invariant
            (λ s : Matrix * Vector, length s.2 = length system.2));
    [|exact H|done].
  clear H. intros region s s' _ H Hs. cbv beta in H.
  destruct (property pd region "Density"); simpl in H; [|done].
  destruct (property pd region "HeatCapacity"); simpl in H; [|done].
  destruct (property pd region "Conductivity"); simpl in H; [|done].
  case_guard; simpl in H; [|done].
  destruct (regionElements g region) as [elements|]; simpl in H; [|done].
  eapply (for_each_invariant
            (λ s : Matrix * Vector, length s.2 = length system.2));
    [|exact H|done].
  clear H. intros element u u' _ H Hu. cbv beta in H.
  destruct (computeLocalMatrix element _ _) as [lmf|]; simpl in H; [|done].
  eapply (for_each_invariant
            (λ s : Matrix * Vector, length s.2 = length system.2));
    [|exact H|done].
  clear H. intros lv w w' _ H Hw.
  by rewrite (scatterVertex_length _ _ _ _ _ _ _ _ H).
Qed.

(** X17.  A Dirichlet vertex whose handle is not below the number of grid
    vertices makes [addToLinearSystem] raise. *)
Theorem addToLinearSystem_stray_dirichlet_vertex `{Linalg} self bCondition vertex :
  bCondition ∈ dirichletBoundaries (problemData self) →
  vertex ∈ boundary_vertices (boundary bCondition) →
  (length (grid_vertices (grid self)) ≤ handle vertex)%nat →
  addToLinearSystem self = None.
Proof.
  intros Hbc Hv Hge. unfold addToLinearSystem.
  destruct (internalHeatGeneration _ _ _) as [v1|] eqn:H1; simpl; [|done].
  destruct (transientTermAdder _ _ _ _ _ _) as [s2|] eqn:H2; simpl; [|done].
  destruct (neumannBoundaryAdder _ _) as [v3|] eqn:H3; simpl; [|done].
  assert (length v3 = length (grid_vertices (grid self))) as Hlen.
  { rewrite (neumannBoundaryAdder_length _ _ _ H3),
      (transientTermAdder_length _ _ _ _ _ _ _ H2).
    simpl. rewrite (internalHeatGeneration_length _ _ _ _ H1).
    apply length_replicate. }
  assert (dirichletBoundaryAdder (problemData self) v3 = None) as ->; [|done].
  unfold dirichletBoundaryAdder.
  apply (for_each_fails (λ u : Vector, length u = length v3) _ _ bCondition);
    [done| | |done].
  - intros bc u u' Hu <-. cbv beta in Hu.
    eapply (for_each_invariant (λ w : Vector, length w = length u));
      [|exact Hu|done].
    intros w y y' _ Hy <-. cbv beta in Hy. by eapply assign_length.
  - intros u Hu.
    apply (for_each_fails (λ u : Vector, length u = length v3) _ _ vertex);
      [done| | |done].
    + intros w y y' Hy <-. cbv beta in Hy. by eapply assign_length.
    + intros y Hy. unfold assign. rewrite option_guard_False; [done|lia].
Qed.

Lemma addToLinearSystem_stray_witness :
  @addToLinearSystem example_linalg (with_problem stray_problem example_initial)
  = None.
Proof.
  apply (@addToLinearSystem_stray_dirichlet_vertex example_linalg
           (with_problem stray_problem example_initial)
           (mkBoundaryCondition
              (mkBoundary [vertex_0; mkVertex 4 (Point2 two two) 1] [])
              (λ _, five))
           (mkVertex 4 (Point2 two two) 1)).
  - left.
  - right. left.
  - vm_compute. lia.
Defined.

(** ** checkConvergence: the empty grid, and what a true flag means *)

(** X18.  [checkConvergence] raises exactly when one of the two temperature
    arrays is empty, [max] being applied to an empty list. *)
Theorem checkConvergence_raises self :
  checkConvergence self = None
  ↔ numericalTemperature self = [] ∨ oldTemperature self = [].
Proof.
  unfold checkConvergence.
  destruct (numericalTemperature self) as [|t ts], (oldTemperature self) as [|o os];
    simpl; split; intros Hc; try done; eauto.
  by destruct Hc.
Qed.

(** X19.  When [checkConvergence] returns true although the final time is
    not exceeded, the iteration is past 0 and no vertex temperature differs
    from the old one by the tolerance or more. *)
Theorem checkConvergence_true_within_time self self' i temp oldTemp :
  checkConvergence self = Some (true, self') →
  currentTime (timer self) ≤ finalTime (problemData self) →
  numericalTemperature self !! i = Some temp →
  oldTemperature self !! i = Some oldTemp →
  (0 < iteration self)%Z
  ∧ Qcabs.Qcabs (temp - oldTemp) < tolerance (problemData self).
Proof.
  unfold checkConvergence. intros Hc Htime Ht Ho.
  set (diffs := zip_with _ _ _) in Hc.
  destruct (py_max diffs) as [d|] eqn:Hd; simpl in Hc; [|done].
  injection Hc as Hflag _.
  rewrite bool_decide_eq_false_2 in Hflag by by apply Qcle_not_lt.
  case_bool_decide as Hit; [|done]. apply bool_decide_eq_true_1 in Hflag.
  split; [done|].
  apply py_max_spec in Hd as [_ Hall]. rewrite Forall_lookup in Hall.
  eapply Qcle_lt_trans; [|exact Hflag].
  apply (Hall i). subst diffs. rewrite lookup_zip_with, Ht. simpl. by rewrite Ho.
Qed.

Lemma checkConvergence_true_witness :
  (0 < iteration tolerant_later)%Z
  ∧ Qcabs.Qcabs (seven - seven) < tolerance (problemData tolerant_later).
Proof.
  apply (checkConvergence_true_within_time tolerant_later
           (default (false, blank) (checkConvergence tolerant_later)).2 1).
  - vm_compute. reflexivity.
  - by_evaluation.
  - by_evaluation.
  - by_evaluation.
Defined.

(** ** run: one iteration, and no iteration *)

(** X20.  After a pass through the loop body the object holds a consistent
    linear system: the numerical temperature is what the solver returned for
    the stored matrix and independent vector, the old temperature has caught
    up with it, and the field saved last is this temperature at the current
    time. *)
Theorem run_body_postcondition `{Linalg} self self' :
  run_body self = Some self' →
  linalg_solve (matrix self') (independent self')
  = Some (numericalTemperature self')
  ∧ oldTemperature self' = numericalTemperature self'
  ∧ last (saved (cgnsSaver self'))
    = Some (numericalTemperature self', currentTime (timer self'))
  ∧ grid self' = grid self.
Proof.
  unfold run_body. intros Hrun.
  destruct (addToLinearSystem self) as [s1|] eqn:H1; simpl in Hrun; [|done].
  apply addToLinearSystem_Some in H1 as (m & v & ->).
  unfold solveLinearSystem in Hrun. simpl in Hrun.
  destruct (linalg_solve m v) as [x|] eqn:Hx; simpl in Hrun; [|done].
  unfold checkConvergence in Hrun. simpl in Hrun.
  destruct (py_max _) as [d|]; simpl in Hrun; [|done].
  injection Hrun as <-. simpl. by rewrite last_snoc.
Qed.

Lemma run_body_postcondition_witness :
  @linalg_solve example_linalg (matrix example_later) (independent example_later)
  = Some (numericalTemperature example_later)
  ∧ oldTemperature example_later = numericalTemperature example_later
  ∧ last (saved (cgnsSaver example_later))
    = Some (numericalTemperature example_later, currentTime (timer example_later))
  ∧ grid example_later = grid example_initial.
Proof.
  apply (@run_body_postcondition example_linalg example_initial).
  vm_compute. reflexivity.
Defined.

(** X21.  With [maxNumberOfIterations] zero or negative the loop body is
    never entered: the program returns the object that [settings] built,
    finalized, whatever the fuel, with nothing assembled, solved or saved. *)
Theorem no_iteration_allowed `{Linalg} fuel pd g self :
  (maxNumberOfIterations pd ≤ 0)%Z →
  settings pd g = Some self →
  __init__ fuel pd g = Returned (finalize self)
  ∧ saved (cgnsSaver (finalize self)) = []
  ∧ numericalTemperature (finalize self) = zeros (length (grid_vertices g))
  ∧ iteration (finalize self) = 0%Z.
Proof.
  intros Hmax Hset. unfold __init__. rewrite Hset.
  unfold settings in Hset.
  destruct (calculateInnerFacesGlobalDerivatives g) as [g'|] eqn:Hg;
    simpl in Hset; [|done].
  injection Hset as <-.
  rewrite run_stops.
  2:{ unfold loop_condition. simpl. lia. }
  split; [done|]. simpl. repeat split.
  unfold calculateInnerFacesGlobalDerivatives in Hg.
  destruct (mapM refreshElement (grid_elements g)); simpl in Hg; [|done].
  by injection Hg as <-.
Qed.

Lemma no_iteration_allowed_witness :
  @__init__ example_linalg 0 idle_problem example_grid
  = Returned (finalize (default blank (settings idle_problem example_grid)))
  ∧ saved (cgnsSaver (finalize (default blank (settings idle_problem example_grid))))
    = []
  ∧ numericalTemperature
      (finalize (default blank (settings idle_problem example_grid)))
    = zeros (length (grid_vertices example_grid))
  ∧ iteration (finalize (default blank (settings idle_problem example_grid))) = 0%Z.
Proof.
  apply (@no_iteration_allowed example_linalg).
  - vm_compute. discriminate.
  - vm_compute. reflexivity.
Defined.

(** ** calculateInnerFacesGlobalDerivatives: a second refresh *)

Lemma mapM_fixed {A : Type} (f f' : A → option A) (l k : list A) :
  (∀ x y, f x = Some y → f' y = Some y) →
  mapM f l = Some k → mapM f' k = Some k.
Proof.
  intros Hf H%mapM_Some_1. apply mapM_Some_2.
  induction H as [|x y l k Hxy _ IH]; constructor; [by eapply Hf|done].
Qed.

Lemma refreshInnerFace_fixed element faces innerFace innerFace' :
  refreshInnerFace element innerFace = Some innerFace' →
  refreshInnerFace (set_innerFaces faces element) innerFace' = Some innerFace'.
Proof.
  unfold refreshInnerFace, getJacobian, getTransposedJacobian, Jacobian,
    vertexCoordinates. simpl. intros H.
  destruct (innerFaceShapeFunctionDerivatives _ !! _) as [D|] eqn:HD;
    simpl in H; [|done].
  destruct (matmul (transpose _) D) as [J|] eqn:HJ; simpl in H; [|done].
  destruct (linalg_inv (transpose J)) as [inverse|] eqn:Hinv;
    simpl in H; [|done].
  destruct (matmul inverse (transpose D)) as [G|] eqn:HG; simpl in H; [|done].
  injection H as <-. simpl. rewrite HD. simpl. rewrite HJ. simpl.
  rewrite Hinv. simpl. by rewrite HG.
Qed.

(** X22.  The refresh of the global derivatives is idempotent: a grid that
    it returned is returned unchanged by a second refresh. *)
Theorem calculateInnerFacesGlobalDerivatives_idempotent g g' :
  calculateInnerFacesGlobalDerivatives g = Some g' →
  calculateInnerFacesGlobalDerivatives g' = Some g'.
Proof.
  unfold calculateInnerFacesGlobalDerivatives. intros H.
  destruct (mapM refreshElement (grid_elements g)) as [elements|] eqn:He;
    simpl in H; [|done].
  injection H as <-. simpl.
  assert (∀ e e', refreshElement e = Some e' → refreshElement e' = Some e')
    as Hfix.
  { intros e e' Href. unfold refreshElement in *.
    destruct (mapM (refreshInnerFace e) (innerFaces e)) as [faces|] eqn:Hf;
      simpl in Href; [|done].
    injection Href as <-. simpl.
    assert (∀ f f', refreshInnerFace e f = Some f' →
                    refreshInnerFace (set_innerFaces faces e) f' = Some f')
      as Hface by (intros f f'; apply refreshInnerFace_fixed).
    by rewrite (mapM_fixed _ _ _ _ Hface Hf). }
  by rewrite (mapM_fixed _ _ _ _ Hfix He).
Qed.

Lemma calculateInnerFacesGlobalDerivatives_witness :
  calculateInnerFacesGlobalDerivatives (grid example_initial)
  = Some (grid example_initial).
Proof.
  apply (calculateInnerFacesGlobalDerivatives_idempotent example_grid).
  vm_compute. reflexivity.
Defined.

(** ** Shape.py: Triangle.getInnerFaceAreaVector *)

(** X24.  With at least three vertices given,
    [Triangle.getInnerFaceAreaVector] raises exactly when the local index is
    not one of the triangle's three inner faces. *)
Theorem Triangle_getInnerFaceAreaVector_is_Some loc c vs :
  (3 ≤ length vs)%nat →
  is_Some (Triangle.getInnerFaceAreaVector loc c vs)
  ↔ (loc < Triangle.numberOfInnerFaces)%nat.
Proof.
  intros Hlen. destruct vs as [|v0 [|v1 [|v2 vs]]]; simpl in Hlen; try lia.
  unfold Triangle.getInnerFaceAreaVector, Triangle.numberOfInnerFaces.
  destruct loc as [|[|[|?]]]; simpl; split; intros Hs;
    try done; try lia; by destruct Hs.
Qed.

Lemma Triangle_getInnerFaceAreaVector_witness :
  is_Some (Triangle.getInnerFaceAreaVector 2 (Point2 half half) unit_square)
  ↔ (2 < Triangle.numberOfInnerFaces)%nat.
Proof.
  apply Triangle_getInnerFaceAreaVector_is_Some. vm_compute. lia.
Defined.

(** ** addToLinearSystem: well-formed input *)

Lemma add_to_total i x (v : Vector) :
  (i < length v)%nat → ∃ v', add_to i x v = Some v' ∧ length v' = length v.
Proof.
  intros Hi. unfold add_to.
  destruct (lookup_lt_is_Some_2 v i Hi) as [old ->]. simpl.
  eexists. split; [done|]. apply length_insert.
Qed.

Lemma assign_total i x (v : Vector) :
  (i < length v)%nat → ∃ v', assign i x v = Some v' ∧ length v' = length v.
Proof.
  intros Hi. exists (<[i := x]> v). split; [by apply assign_Some|].
  apply length_insert.
Qed.

Lemma enumerate_from_spec {A : Type} (l : list A) : ∀ start,
  Forall (λ p, (p.1 < start + length l)%nat ∧ p.2 ∈ l) (enumerate_from start l).
Proof.
  induction l as [|x l IH]; intros start; simpl; constructor.
  - split; [simpl; lia|by left].
  - eapply Forall_impl; [apply (IH (S start))|].
    intros p [Hp Hin]. split; [lia|by right].
Qed.

Lemma regionElements_total (P : Element → Prop) g region :
  Forall P (grid_elements g) →
  Forall (λ i, (i < length (grid_elements g))%nat) (region_elements region) →
  ∃ elements, regionElements g region = Some elements ∧ Forall P elements.
Proof.
  unfold regionElements. intros HP.
  induction 1 as [|i idx Hi _ (es & Hes & HPes)].
  - by exists [].
  - destruct (lookup_lt_is_Some_2 _ _ Hi) as [e He].
    exists (e :: es). split.
    + change (mapM ?f (i :: idx)) with (x ← f i; k ← mapM f idx; Some (x :: k)).
      cbv beta. rewrite He. simpl. by rewrite Hes.
    + constructor; [|done]. rewrite Forall_lookup in HP. by eapply HP.
Qed.

Lemma computeLocalMatrix_wellShaped element permeability b :
  _is (shape element) (vertices element) = true →
  Forall (wellShapedFace (shape element) (length (vertices element)))
    (innerFaces element) →
  ∃ M, computeLocalMatrix element permeability b = Some M
       ∧ square (length (vertices element)) M.
Proof.
  intros His Hfaces. unfold computeLocalMatrix.
  set (n := length (vertices element)) in *.
  apply (for_each_total (square n) (wellShapedFace (shape element) n));
    [|done|apply zeros2_square].
  intros f N Hf HN.
  destruct (diffusiveFlux_wellShaped _ _ permeability _ Hf) as (flux & Hflux & Hlen).
  destruct Hf as (Hloc & _).
  assert (is_Some (innerFaceShapeFunctionDerivatives (shape element) !! local f))
    as [D HD].
  { apply lookup_lt_is_Some_2. by destruct (shape element). }
  destruct (innerFaceNeighbourVertices_in_range _ _ _ _ His HD)
    as (back & fwd & Hrow & Hback & Hfwd).
  destruct (scatterFlux_rows n flux back fwd Hback Hfwd n 0%nat N HN)
    as (N' & Hrun & HN' & _); [lia|lia|].
  exists N'. split; [|done].
  unfold addInnerFace. rewrite Hflux. simpl. rewrite Hrow. simpl. exact Hrun.
Qed.

Lemma square_lookup n (M : Matrix) r i :
  square n M → (r < n)%nat → (i < n)%nat →
  ∃ row x, M !! r = Some row ∧ row !! i = Some x.
Proof.
  intros [Hlen Hrows] Hr Hi.
  destruct (lookup_lt_is_Some_2 M r) as [row Hrow]; [lia|].
  rewrite Forall_lookup in Hrows. pose proof (Hrows _ _ Hrow) as Hl.
  destruct (lookup_lt_is_Some_2 row i) as [x Hx]; [lia|]. eauto.
Qed.

Lemma scatterVertex_total n it oldT element acc lmf lv (system : Matrix * Vector) :
  length oldT = n →
  length (subelementVolumes element) = length (vertices element) →
  Forall (λ v, (handle v < n)%nat) (vertices element) →
  square (length (vertices element)) lmf →
  (lv.1 < length (vertices element))%nat → (handle lv.2 < n)%nat →
  square n system.1 → length system.2 = n →
  ∃ system', scatterVertex it oldT element acc lmf lv system = Some system'
             ∧ square n system'.1 ∧ length system'.2 = n.
Proof.
  intros Hold Hvol Hhandles Hlmf Hlocal Hhandle Hm Hv. unfold scatterVertex.
  destruct (lookup_lt_is_Some_2 (subelementVolumes element) lv.1) as [sv ->];
    [lia|]. simpl.
  destruct (lookup_lt_is_Some_2 oldT (handle lv.2)) as [old ->]; [lia|]. simpl.
  destruct (add_to_total (handle lv.2) (sv * acc * old) system.2)
    as (v' & -> & Hv'); [lia|]. simpl.
  destruct (it =? 0)%Z;
    [|eexists; split; [done|]; split; [done|simpl; lia]].
  destruct (add_at_is_Some n (handle lv.2) (handle lv.2) (sv * acc) system.1)
    as [m1 Hm1]; [done..|].
  rewrite Hm1. simpl.
  pose proof (add_at_square _ _ _ _ _ _ Hm1 Hm) as Hsq1.
  destruct (for_each_total (square n)
              (λ lq : nat * Vertex,
                 (lq.1 < length (vertices element))%nat ∧ (handle lq.2 < n)%nat)
              (enumerate_from 0 (vertices element))
              (λ lq matrix,
                 row ← lmf !! lv.1; x ← row !! lq.1;
                 add_at (handle lv.2) (handle lq.2) x matrix))
    with (s := m1) as (m2 & Hm2 & Hsq2).
  - intros lq N [Hq1 Hq2] HN.
    destruct (square_lookup _ lmf lv.1 lq.1 Hlmf) as (row & x & -> & Hx);
      [done..|]. simpl. rewrite Hx. simpl.
    destruct (add_at_is_Some n (handle lv.2) (handle lq.2) x N) as [N' HN'];
      [done..|].
    exists N'. split; [done|]. by eapply add_at_square.
  - eapply Forall_impl; [apply (enumerate_from_spec (vertices element) 0)|].
    intros lq [Hq Hin]. split; [done|].
    rewrite Forall_forall in Hhandles. by apply Hhandles.
  - done.
  - rewrite Hm2. simpl. eexists. split; [done|]. split; [done|]. simpl. lia.
Qed.

Lemma wellFormed_property pd region key :
  Forall (λ key, is_Some (property pd region key)) propertyKeys →
  key ∈ propertyKeys → ∃ x, property pd region key = Some x.
Proof. intros Hall Hkey. rewrite Forall_forall in Hall. by apply Hall. Qed.

Lemma internalHeatGeneration_total n pd g (independent : Vector) :
  Forall (wellFormedElement n) (grid_elements g) →
  Forall (wellFormedRegion pd g) (regions g) →
  length independent = n →
  ∃ v, internalHeatGeneration pd g independent = Some v ∧ length v = n.
Proof.
  intros Helements Hregions Hlen. unfold internalHeatGeneration.
  apply (for_each_total (λ u : Vector, length u = n) (wellFormedRegion pd g));
    [|done|done].
  intros region u [Hkeys Hidx] Hu.
  destruct (wellFormed_property _ _ "InternalHeatGeneration" Hkeys)
    as [hg ->]; [unfold propertyKeys; set_solver|]. simpl.
  destruct (regionElements_total _ _ _ Helements Hidx) as (es & -> & Hes).
  simpl.
  apply (for_each_total (λ u : Vector, length u = n) (wellFormedElement n));
    [|done|done].
  intros e w (_ & Hh & _) Hw.
  apply (for_each_total (λ u : Vector, length u = n)
           (λ v, (handle v < n)%nat)); [|done|done].
  intros v y Hv Hy.
  destruct (assign_total (handle v) (volume v * hg) y) as (y' & ? & ?); [lia|].
  exists y'. split; [done|]. lia.
Qed.

Lemma transientTermAdder_total n pd g t it oldT (system : Matrix * Vector) :
  timer_timeStep t ≠ 0 →
  length oldT = n →
  Forall (wellFormedElement n) (grid_elements g) →
  Forall (wellFormedRegion pd g) (regions g) →
  square n system.1 → length system.2 = n →
  ∃ system', transientTermAdder pd g t it oldT system = Some system'
             ∧ square n system'.1 ∧ length system'.2 = n.
Proof.
  intros Hstep Hold Helements Hregions Hm Hv. unfold transientTermAdder.
  apply (for_each_total
           (λ sys : Matrix * Vector, square n sys.1 ∧ length sys.2 = n)
           (wellFormedRegion pd g)); [|done|done].
  intros region sys [Hkeys Hidx] [Hsys1 Hsys2].
  destruct (wellFormed_property _ _ "Density" Hkeys) as [density Hdensity];
    [unfold propertyKeys; set_solver|].
  destruct (wellFormed_property _ _ "HeatCapacity" Hkeys) as [capacity Hcapacity];
    [unfold propertyKeys; set_solver|].
  destruct (wellFormed_property _ _ "Conductivity" Hkeys) as [k Hk];
    [unfold propertyKeys; set_solver|].
  rewrite Hdensity, Hcapacity, Hk. simpl.
  rewrite option_guard_True by done. simpl.
  destruct (regionElements_total _ _ _ Helements Hidx) as (es & -> & Hes).
  simpl.
  apply (for_each_total
           (λ sys : Matrix * Vector, square n sys.1 ∧ length sys.2 = n)
           (wellFormedElement n)); [|done|done].
  intros e w (His & Hh & Hvol & Hfaces) Hw.
  destruct (computeLocalMatrix_wellShaped e k (it =? 0)%Z His Hfaces)
    as (lmf & -> & Hlmf). simpl.
  apply (for_each_total
           (λ sys : Matrix * Vector, square n sys.1 ∧ length sys.2 = n)
           (λ lv : nat * Vertex,
              (lv.1 < length (vertices e))%nat ∧ (handle lv.2 < n)%nat));
    [| |done].
  - intros lv y [Hlv1 Hlv2] [Hy1 Hy2].
    by apply (scatterVertex_total n).
  - eapply Forall_impl; [apply (enumerate_from_spec (vertices e) 0)|].
    intros lv [Hlv Hin]. split; [done|].
    rewrite Forall_forall in Hh. by apply Hh.
Qed.

Lemma neumannBoundaryAdder_total `{Linalg} n pd (independent : Vector) :
  Forall (λ bCondition,
            Forall (λ facet,
                      Forall (λ outerFace,
                                (handle (outerFace_vertex outerFace) < n)%nat)
                        (outerFaces facet))
              (facets (boundary bCondition)))
    (neumannBoundaries pd) →
  length independent = n →
  ∃ v, neumannBoundaryAdder pd independent = Some v ∧ length v = n.
Proof.
  intros Hneumann Hlen. unfold neumannBoundaryAdder.
  eapply (for_each_total (λ u : Vector, length u = n)); [|exact Hneumann|done].
  intros bc u Hbc Hu.
  eapply (for_each_total (λ u : Vector, length u = n)); [|exact Hbc|done].
  intros facet w Hfacet Hw.
  eapply (for_each_total (λ u : Vector, length u = n)); [|exact Hfacet|done].
  intros outerFace y Hof Hy. cbv beta in Hof.
  destruct (add_to_total (handle (outerFace_vertex outerFace))
              (minus_one * getValue bc (outerFace_handle outerFace)
               * linalg_norm (getCoordinates (outerFace_area outerFace))) y)
    as (y' & ? & ?); [lia|].
  exists y'. split; [done|]. lia.
Qed.

Lemma dirichletBoundaryAdder_total n pd (independent : Vector) :
  Forall (λ bCondition,
            Forall (λ vertex, (handle vertex < n)%nat)
              (boundary_vertices (boundary bCondition)))
    (dirichletBoundaries pd) →
  length independent = n →
  ∃ v, dirichletBoundaryAdder pd independent = Some v ∧ length v = n.
Proof.
  intros Hdirichlet Hlen. unfold dirichletBoundaryAdder.
  eapply (for_each_total (λ u : Vector, length u = n)); [|exact Hdirichlet|done].
  intros bc u Hbc Hu.
  eapply (for_each_total (λ u : Vector, length u = n)); [|exact Hbc|done].
  intros v y Hv Hy. cbv beta in Hv.
  destruct (assign_total (handle v) (getValue bc (handle v)) y)
    as (y' & ? & ?); [lia|].
  exists y'. split; [done|]. lia.
Qed.

Lemma dirichletRows_total n pd (matrix : Matrix) :
  Forall (λ bCondition,
            Forall (λ vertex, (handle vertex < n)%nat)
              (boundary_vertices (boundary bCondition)))
    (dirichletBoundaries pd) →
  square n matrix →
  ∃ M, dirichletRows pd n matrix = Some M ∧ square n M.
Proof.
  intros Hdirichlet Hsq. unfold dirichletRows.
  eapply (for_each_total (square n)); [|exact Hdirichlet|done].
  intros bc N Hbc HN.
  eapply (for_each_total (square n)); [|exact Hbc|done].
  intros v N' Hv [HN'1 HN'2]. cbv beta in Hv.
  rewrite option_guard_True by lia. simpl.
  rewrite option_guard_True by done. simpl.
  eexists. split; [done|]. split.
  - by rewrite !length_insert.
  - apply Forall_insert; [by apply Forall_insert; [|apply length_replicate]|].
    rewrite length_insert. apply length_replicate.
Qed.

(** X25.  On a well-formed solver object [addToLinearSystem] does not
    raise, at iteration 0 and later, and returns a matrix and an independent
    vector of the size of the grid. *)
Theorem addToLinearSystem_total `{Linalg} self :
  wellFormed self →
  ∃ self', addToLinearSystem self = Some self'
           ∧ square (length (grid_vertices (grid self))) (matrix self')
           ∧ length (independent self') = length (grid_vertices (grid self)).
Proof.
  intros (Hstep & Hold & Hmatrix & Helements & Hregions & Hneumann & Hdirichlet).
  simpl in *. set (n := length (grid_vertices (grid self))) in *.
  unfold addToLinearSystem. fold n.
  destruct (internalHeatGeneration_total n (problemData self) (grid self)
              (zeros n)) as (v1 & -> & Hl1);
    [done|done|apply length_replicate|]. simpl.
  destruct (transientTermAdder_total n (problemData self) (grid self)
              (timer self) (iteration self) (oldTemperature self)
              (matrix self, v1)) as (s2 & -> & Hm2 & Hl2); [done..|]. simpl.
  destruct (neumannBoundaryAdder_total n (problemData self) s2.2)
    as (v3 & -> & Hl3); [done..|]. simpl.
  destruct (dirichletBoundaryAdder_total n (problemData self) v3)
    as (v4 & -> & Hl4); [done..|]. simpl.
  destruct (iteration self =? 0)%Z; simpl.
  - destruct (dirichletRows_total n (problemData self) s2.1)
      as (m5 & -> & Hsq5); [done..|]. simpl. by eexists.
  - by eexists.
Qed.

Lemma addToLinearSystem_total_witness :
  ∃ self', @addToLinearSystem example_linalg example_initial = Some self'
           ∧ square (length (grid_vertices (grid example_initial))) (matrix self')
           ∧ length (independent self')
             = length (grid_vertices (grid example_initial)).
Proof.
  apply (@addToLinearSystem_total example_linalg).
  by_evaluation.
Defined.
